(** * compile_actions: locale resolution, payload building, blob encoding

    A shallow embedding of [compile_actions.py].  SQLite column values are
    kept dynamically typed, as [sqlite3.Row] hands them to Python; Python
    dictionaries are finite maps; exceptions are an explicit error monad. *)

From Stdlib Require Import ZArith NArith Strings.String Strings.Ascii Strings.Byte List Lia.
From stdpp Require Import gmap strings list fin_maps sorting.

Local Open Scope N_scope.

(** ** Values *)

(** What a column of a [sqlite3.Row] holds in Python 3: [None], [int],
    [str] or [bytes].  Text is kept as its sequence of (UTF-8) octets.
    REAL columns are left out of the model. *)
Inductive sqlval : Type :=
  | SNull
  | SInt (n : Z)
  | SText (s : string)
  | SBlob (b : list byte).

(** The argument of [encode_blob] is annotated [bytes | memoryview | None];
    a [memoryview] is a window on a byte buffer. *)
Inductive pyarg : Type :=
  | Val (v : sqlval)
  | MemoryView (buf : list byte).

(** Exceptions that can leave the functions of this module. *)
Inductive exn : Type :=
  | TypeError
  | ValueError
  | BinasciiError
  | UnicodeDecodeError
  | DatabaseError
  | SystemExit (msg : string).

Inductive result (A : Type) : Type :=
  | Ok (a : A)
  | Raise (e : exn).
Arguments Ok {A} a.
Arguments Raise {A} e.

#[global] Instance result_ret : MRet result := λ A a, Ok a.

#[global] Instance result_bind : MBind result := λ A B k r,
  match r with
  | Ok a => k a
  | Raise e => Raise e
  end.

(** A [for] loop whose body may raise, threading the loop state. *)
Fixpoint for_each {A S} (body : S → A → result S) (xs : list A) (s : S) : result S :=
  match xs with
  | [] => Ok s
  | x :: xs' => s' ← body s x ; for_each body xs' s'
  end.

#[global] Instance byte_eq_dec : EqDecision byte.
Proof. intros a b. destruct (Byte.eqb a b) eqn:E.
  - left. by apply Byte.byte_dec_bl.
  - right. intros Heq. apply Byte.byte_dec_lb in Heq. congruence.
Defined.

#[global] Instance byte_countable : Countable byte :=
  inj_countable Byte.to_N Byte.of_N Byte.of_to_N.

#[global] Instance sqlval_eq_dec : EqDecision sqlval.
Proof. solve_decision. Defined.

Definition sqlval_to_sum (v : sqlval) : unit + Z + string + list byte :=
  match v with
  | SNull => inl (inl (inl tt))
  | SInt n => inl (inl (inr n))
  | SText s => inl (inr s)
  | SBlob b => inr b
  end.

Definition sqlval_of_sum (x : unit + Z + string + list byte) : sqlval :=
  match x with
  | inl (inl (inl _)) => SNull
  | inl (inl (inr n)) => SInt n
  | inl (inr s) => SText s
  | inr b => SBlob b
  end.

#[global] Instance sqlval_countable : Countable sqlval.
Proof.
  apply (inj_countable' sqlval_to_sum sqlval_of_sum). by intros [].
Defined.

(** Python truth value of a column value: [None], [0], [''] and [b'']
    are false. *)
Definition truthy (v : sqlval) : bool :=
  match v with
  | SNull => false
  | SInt n => negb (Z.eqb n 0)
  | SText s => negb (String.eqb s "")
  | SBlob b => match b with [] => false | _ => true end
  end.

(** Python's [a or b]. *)
Definition py_or (a b : sqlval) : sqlval := if truthy a then a else b.

(** ** Base64 (the [base64] / [binascii] library functions used) *)

Module Base64.

Definition table_b2a_base64 : list byte :=
  list_byte_of_string
    "ABCDEFGHIJKLMNOPQRSTUVWXYZabcdefghijklmnopqrstuvwxyz0123456789+/".

Definition BASE64_PAD : byte := "="%byte.

Definition b2a (n : N) : byte := nth (N.to_nat n) table_b2a_base64 BASE64_PAD.

Fixpoint index_from (i : N) (c : byte) (tbl : list byte) : option N :=
  match tbl with
  | [] => None
  | d :: tbl' => if Byte.eqb c d then Some i else index_from (N.succ i) c tbl'
  end.

(** The inverse table: [None] for an octet outside the alphabet. *)
Definition a2b (c : byte) : option N := index_from 0 c table_b2a_base64.

(** An [unsigned char] store. *)
Definition uchar (n : N) : byte :=
  match Byte.of_N (n mod 256) with
  | Some b => b
  | None => "000"%byte
  end.

(** [binascii.b2a_base64(data, newline=False)]: three octets become
    four sextets; a short tail is padded with ['=']. *)
Fixpoint b2a_base64 (bin : list byte) : list byte :=
  match bin with
  | [] => []
  | [b0] =>
      let n0 := Byte.to_N b0 in
      [b2a (N.shiftr n0 2); b2a (N.shiftl (N.land n0 3) 4);
       BASE64_PAD; BASE64_PAD]
  | [b0; b1] =>
      let n0 := Byte.to_N b0 in
      let n1 := Byte.to_N b1 in
      [b2a (N.shiftr n0 2);
       b2a (N.lor (N.shiftl (N.land n0 3) 4) (N.shiftr n1 4));
       b2a (N.shiftl (N.land n1 15) 2);
       BASE64_PAD]
  | b0 :: b1 :: b2 :: rest =>
      let n0 := Byte.to_N b0 in
      let n1 := Byte.to_N b1 in
      let n2 := Byte.to_N b2 in
      b2a (N.shiftr n0 2)
      :: b2a (N.lor (N.shiftl (N.land n0 3) 4) (N.shiftr n1 4))
      :: b2a (N.lor (N.shiftl (N.land n1 15) 2) (N.shiftr n2 6))
      :: b2a (N.land n2 63)
      :: b2a_base64 rest
  end.

Definition emit (b : byte) (r : result (list byte)) : result (list byte) :=
  out ← r ; Ok (b :: out).

(** [binascii.a2b_base64(data)] in its default, non-strict mode: octets
    outside the alphabet are skipped, a complete pad sequence ends the
    parse, and data that stops inside a quad is an error. *)
Fixpoint a2b_base64 (ascii : list byte) (quad_pos : nat) (leftchar : N)
    (pads : nat) : result (list byte) :=
  match ascii with
  | [] => if Nat.eqb quad_pos 0 then Ok [] else Raise BinasciiError
  | this_ch :: ascii' =>
      if Byte.eqb this_ch BASE64_PAD then
        if Nat.leb 2 quad_pos then
          if Nat.leb 4 (quad_pos + S pads) then Ok []
          else a2b_base64 ascii' quad_pos leftchar (S pads)
        else a2b_base64 ascii' quad_pos leftchar pads
      else
        match a2b this_ch with
        | None => a2b_base64 ascii' quad_pos leftchar pads
        | Some c =>
            match quad_pos with
            | 0%nat => a2b_base64 ascii' 1 c 0
            | 1%nat =>
                emit (uchar (N.lor (N.shiftl leftchar 2) (N.shiftr c 4)))
                     (a2b_base64 ascii' 2 (N.land c 15) 0)
            | 2%nat =>
                emit (uchar (N.lor (N.shiftl leftchar 4) (N.shiftr c 2)))
                     (a2b_base64 ascii' 3 (N.land c 3) 0)
            | _ =>
                emit (uchar (N.lor (N.shiftl leftchar 6) c))
                     (a2b_base64 ascii' 0 0 0)
            end
        end
  end.

Definition is_ascii (b : byte) : bool := Byte.to_N b <? 128.

(** [bytes.decode("ascii")]. *)
Definition decode_ascii (bs : list byte) : result string :=
  if forallb is_ascii bs then Ok (string_of_list_byte bs)
  else Raise UnicodeDecodeError.

(** [str.encode("ascii")] as [base64.b64decode] applies it to a [str]
    argument, turning the failure into [ValueError]. *)
Definition bytes_from_decode_data (s : string) : result (list byte) :=
  let bs := list_byte_of_string s in
  if forallb is_ascii bs then Ok bs else Raise ValueError.

Definition b64encode (s : list byte) : list byte := b2a_base64 s.

Definition b64decode (s : string) : result (list byte) :=
  bs ← bytes_from_decode_data s ; a2b_base64 bs 0 0 0.

End Base64.

(** ** encode_blob *)

(** [encode_blob] returns [None] or a [str].  [base64.b64encode] accepts
    bytes-like objects only; a non-empty [str] or a non-zero [int] raises
    [TypeError]. *)
Definition encode_blob (value : pyarg) : result (option string) :=
  match value with
  | Val SNull => Ok None
  | _ =>
      let value' :=
        match value with
        | MemoryView buf => SBlob buf
        | Val v => v
        end in
      if negb (truthy value') then Ok (Some ""%string)
      else
        match value' with
        | SBlob b =>
            s ← Base64.decode_ascii (Base64.b64encode b) ; Ok (Some s)
        | _ => Raise TypeError
        end
  end.

(** ** Rows *)

(** A row of [Tools], with the columns [fetch_tool_rows] selects. *)
Module Tool.
Record row : Type := {
  rowId : sqlval;
  id : sqlval;
  toolType : sqlval;
  flags : sqlval;
  visibilityFlags : sqlval;
  requirements : sqlval;
  authenticationPolicy : sqlval;
  customIcon : sqlval;
  deprecationReplacementId : sqlval;
  sourceActionProvider : sqlval;
  outputTypeInstance : sqlval;
  sourceContainerId : sqlval;
  attributionContainerId : sqlval
}.
End Tool.

Module ToolLocalization.
Record row : Type := {
  toolId : sqlval;
  locale : sqlval;
  name : sqlval;
  descriptionSummary : sqlval
}.
End ToolLocalization.

Module ParameterLocalization.
Record row : Type := {
  toolId : sqlval;
  key : sqlval;
  locale : sqlval;
  name : sqlval;
  description : sqlval
}.
End ParameterLocalization.

(** A row of the [Parameters] relation. *)
Module ParameterTable.
Record row : Type := {
  toolId : sqlval;
  key : sqlval;
  sortOrder : sqlval;
  relationships : sqlval;
  flags : sqlval;
  typeId : sqlval;
  typeInstance : sqlval
}.
End ParameterTable.

(** A row of the [Types] relation. *)
Module TypeTable.
Record row : Type := {
  rowId : sqlval;
  id : sqlval;
  kind : sqlval;
  runtimeFlags : sqlval;
  runtimeRequirements : sqlval
}.
End TypeTable.

(** A row as [fetch_parameters] returns it: a parameter joined with its
    optional type. *)
Module Param.
Record row : Type := {
  toolId : sqlval;
  key : sqlval;
  sortOrder : sqlval;
  relationships : sqlval;
  flags : sqlval;
  typeId : sqlval;
  typeInstance : sqlval;
  typeIdentifier : sqlval;
  typeKind : sqlval;
  typeRuntimeFlags : sqlval;
  typeRuntimeRequirements : sqlval
}.
End Param.

(** The five relations the queries read. *)
Record Database : Type := {
  Tools : list Tool.row;
  ToolLocalizations : list ToolLocalization.row;
  ParameterLocalizations : list ParameterLocalization.row;
  ParameterRows : list ParameterTable.row;  (* the relation [Parameters] *)
  Types : list TypeTable.row
}.

(** ** SQL comparison *)

(** SQL [=]: never true when a side is NULL; values of different storage
    classes are unequal (no affinity conversion applies to the columns
    compared here). *)
Definition sql_eq (a b : sqlval) : bool :=
  match a, b with
  | SNull, _ | _, SNull => false
  | _, _ => bool_decide (a = b)
  end.

(** [x IN (SELECT ...)]. *)
Definition sql_in (a : sqlval) (xs : list sqlval) : bool := existsb (sql_eq a) xs.

Definition octets (bs : list byte) : list N := map Byte.to_N bs.

(** The order [ORDER BY] sorts by: NULL, then integers by value, then
    text and then blobs, each compared octet by octet. *)
Definition sql_compare (a b : sqlval) : comparison :=
  match a, b with
  | SNull, SNull => Eq
  | SNull, _ => Lt
  | _, SNull => Gt
  | SInt x, SInt y => Z.compare x y
  | SInt _, _ => Lt
  | _, SInt _ => Gt
  | SText s, SText t =>
      list_compare N.compare (octets (list_byte_of_string s))
                             (octets (list_byte_of_string t))
  | SText _, _ => Lt
  | _, SText _ => Gt
  | SBlob x, SBlob y => list_compare N.compare (octets x) (octets y)
  end.

(** Comparison by a first criterion, then by a second. *)
Definition then_by (c1 c2 : comparison) : comparison :=
  match c1 with
  | Eq => c2
  | _ => c1
  end.

Definition not_after (c : comparison) : Prop := c ≠ Gt.

#[global] Instance not_after_dec c : Decision (not_after c).
Proof. unfold not_after. destruct c; [left | left | right]; congruence. Defined.

(** [ORDER BY Parameters.toolId, Parameters.sortOrder, Parameters.key]. *)
Definition parameter_compare (p q : Param.row) : comparison :=
  then_by (sql_compare (Param.toolId p) (Param.toolId q))
    (then_by (sql_compare (Param.sortOrder p) (Param.sortOrder q))
             (sql_compare (Param.key p) (Param.key q))).

Definition parameter_le (p q : Param.row) : Prop :=
  not_after (parameter_compare p q).

#[global] Instance parameter_le_dec p q : Decision (parameter_le p q).
Proof. unfold parameter_le. apply _. Defined.

(** ** Row fetcher *)

Definition action_row_ids (db : Database) : list sqlval :=
  map Tool.rowId
    (filter (λ t, sql_eq (Tool.toolType t) (SText "action") = true) (Tools db)).

Definition fetch_tool_rows (conn : Database) : list Tool.row :=
  merge_sort (λ t u, not_after (sql_compare (Tool.rowId t) (Tool.rowId u)))
    (filter (λ t, sql_eq (Tool.toolType t) (SText "action") = true) (Tools conn)).

(** The inner [query] of [fetch_tool_localizations]. *)
Definition query_tool_localizations (conn : Database) (loc : string)
    : list ToolLocalization.row :=
  filter (λ r, sql_eq (ToolLocalization.locale r) (SText loc)
               && sql_in (ToolLocalization.toolId r) (action_row_ids conn) = true)
         (ToolLocalizations conn).

(** The inner [query] of [fetch_parameter_localizations]. *)
Definition query_parameter_localizations (conn : Database) (loc : string)
    : list ParameterLocalization.row :=
  filter (λ r, sql_eq (ParameterLocalization.locale r) (SText loc)
               && sql_in (ParameterLocalization.toolId r) (action_row_ids conn) = true)
         (ParameterLocalizations conn).

(** [fallback_locale and fallback_locale != locale]. *)
Definition use_fallback (locale : string) (fallback_locale : option string) : option string :=
  match fallback_locale with
  | None => None
  | Some f => if truthy (SText f) && negb (String.eqb f locale) then Some f else None
  end.

Section Resolver.
Context {K R : Type} `{Countable K}.
Variable key_of : R → K.

(** [for row in rows: localized[key] = row] *)
Definition assign_all (rows : list R) (localized : gmap K R) : gmap K R :=
  foldl (λ m row, <[key_of row := row]> m) localized rows.

(** [for row in rows: localized.setdefault(key, row)] *)
Definition setdefault_all (rows : list R) (localized : gmap K R) : gmap K R :=
  foldl (λ m row, match m !! key_of row with
                  | Some _ => m
                  | None => <[key_of row := row]> m
                  end) localized rows.
End Resolver.

Definition fetch_tool_localizations (conn : Database) (locale : string)
    (fallback_locale : option string) : gmap sqlval ToolLocalization.row :=
  let localized := assign_all ToolLocalization.toolId
                     (query_tool_localizations conn locale) ∅ in
  match use_fallback locale fallback_locale with
  | Some f =>
      setdefault_all ToolLocalization.toolId
        (query_tool_localizations conn f) localized
  | None => localized
  end.

Definition parameter_localization_key (row : ParameterLocalization.row)
    : sqlval * sqlval :=
  (ParameterLocalization.toolId row, ParameterLocalization.key row).

Definition fetch_parameter_localizations (conn : Database) (locale : string)
    (fallback_locale : option string)
    : gmap (sqlval * sqlval) ParameterLocalization.row :=
  let localized := assign_all parameter_localization_key
                     (query_parameter_localizations conn locale) ∅ in
  match use_fallback locale fallback_locale with
  | Some f =>
      setdefault_all parameter_localization_key
        (query_parameter_localizations conn f) localized
  | None => localized
  end.

(** [LEFT JOIN Types ON Types.rowId = Parameters.typeId]: one joined row
    per matching type, or a single row with NULL type columns. *)
Definition join_type (types : list TypeTable.row) (p : ParameterTable.row)
    : list Param.row :=
  let mk (ti tk tf tr : sqlval) :=
    {| Param.toolId := ParameterTable.toolId p;
       Param.key := ParameterTable.key p;
       Param.sortOrder := ParameterTable.sortOrder p;
       Param.relationships := ParameterTable.relationships p;
       Param.flags := ParameterTable.flags p;
       Param.typeId := ParameterTable.typeId p;
       Param.typeInstance := ParameterTable.typeInstance p;
       Param.typeIdentifier := ti;
       Param.typeKind := tk;
       Param.typeRuntimeFlags := tf;
       Param.typeRuntimeRequirements := tr |} in
  match filter (λ ty, sql_eq (TypeTable.rowId ty) (ParameterTable.typeId p) = true) types with
  | [] => [mk SNull SNull SNull SNull]
  | tys => map (λ ty, mk (TypeTable.id ty) (TypeTable.kind ty)
                        (TypeTable.runtimeFlags ty)
                        (TypeTable.runtimeRequirements ty)) tys
  end.

Definition fetch_parameters (conn : Database) : list Param.row :=
  merge_sort parameter_le
    (p ← ParameterRows conn;
     _ ← filter (λ t, sql_eq (Tool.rowId t) (ParameterTable.toolId p)
                      && sql_eq (Tool.toolType t) (SText "action") = true)
                (Tools conn);
     join_type (Types conn) p).

(** ** Payload builder *)

(** The nested ["type"] object of an argument record. *)
Module TypeRecord.
Record t : Type := {
  rowId : sqlval;
  kind : sqlval;
  runtimeFlags : sqlval;
  runtimeRequirements : option string;
  encodedId : option string
}.
End TypeRecord.

(** One element of a tool's ["arguments"]. *)
Module Argument.
Record t : Type := {
  key : sqlval;
  name : sqlval;
  description : sqlval;
  sortOrder : sqlval;
  flags : sqlval;
  relationships : option string;
  typeInstance : option string;
  type : TypeRecord.t
}.
End Argument.

(** One value of the compiled map. *)
Module Action.
Record t : Type := {
  rowId : sqlval;
  name : sqlval;
  description : sqlval;
  toolType : sqlval;
  sourceActionProvider : sqlval;
  sourceContainerId : sqlval;
  attributionContainerId : sqlval;
  flags : sqlval;
  visibilityFlags : sqlval;
  authenticationPolicy : sqlval;
  deprecationReplacementId : sqlval;
  requirements : option string;
  outputTypeInstance : option string;
  customIcon : option string;
  arguments : list Argument.t
}.
End Action.

(** [localized[col] if localized else None]; a fetched row has columns,
    so it is true as a condition. *)
Definition column_or_none {R} (col : R → sqlval) (localized : option R) : sqlval :=
  match localized with
  | Some row => col row
  | None => SNull
  end.

(** The dictionary appended for one parameter row (lines 134-149). *)
Definition argument_record
    (parameter_localizations : gmap (sqlval * sqlval) ParameterLocalization.row)
    (param : Param.row) : result Argument.t :=
  let localized := parameter_localizations !! (Param.toolId param, Param.key param) in
  relationships ← encode_blob (Val (Param.relationships param));
  typeInstance ← encode_blob (Val (Param.typeInstance param));
  runtimeRequirements ← encode_blob (Val (Param.typeRuntimeRequirements param));
  encodedId ← encode_blob (Val (Param.typeIdentifier param));
  Ok {| Argument.key := Param.key param;
        Argument.name :=
          py_or (column_or_none ParameterLocalization.name localized) (Param.key param);
        Argument.description :=
          column_or_none ParameterLocalization.description localized;
        Argument.sortOrder := Param.sortOrder param;
        Argument.flags := Param.flags param;
        Argument.relationships := relationships;
        Argument.typeInstance := typeInstance;
        Argument.type :=
          {| TypeRecord.rowId := Param.typeId param;
             TypeRecord.kind := Param.typeKind param;
             TypeRecord.runtimeFlags := Param.typeRuntimeFlags param;
             TypeRecord.runtimeRequirements := runtimeRequirements;
             TypeRecord.encodedId := encodedId |} |}.

(** Body of the first loop: [params_by_tool[param["toolId"]].append(...)]
    on a [defaultdict(list)]. *)
Definition group_parameter
    (parameter_localizations : gmap (sqlval * sqlval) ParameterLocalization.row)
    (params_by_tool : gmap sqlval (list Argument.t)) (param : Param.row)
    : result (gmap sqlval (list Argument.t)) :=
  record ← argument_record parameter_localizations param;
  Ok (<[Param.toolId param :=
          default [] (params_by_tool !! Param.toolId param) ++ [record]]>
        params_by_tool).

(** The dictionary stored for one tool row (lines 155-171). *)
Definition tool_record
    (tool_localizations : gmap sqlval ToolLocalization.row)
    (params_by_tool : gmap sqlval (list Argument.t))
    (tool : Tool.row) : result Action.t :=
  let localized := tool_localizations !! Tool.rowId tool in
  requirements ← encode_blob (Val (Tool.requirements tool));
  outputTypeInstance ← encode_blob (Val (Tool.outputTypeInstance tool));
  customIcon ← encode_blob (Val (Tool.customIcon tool));
  Ok {| Action.rowId := Tool.rowId tool;
        Action.name :=
          py_or (column_or_none ToolLocalization.name localized) (Tool.id tool);
        Action.description :=
          column_or_none ToolLocalization.descriptionSummary localized;
        Action.toolType := Tool.toolType tool;
        Action.sourceActionProvider := Tool.sourceActionProvider tool;
        Action.sourceContainerId := Tool.sourceContainerId tool;
        Action.attributionContainerId := Tool.attributionContainerId tool;
        Action.flags := Tool.flags tool;
        Action.visibilityFlags := Tool.visibilityFlags tool;
        Action.authenticationPolicy := Tool.authenticationPolicy tool;
        Action.deprecationReplacementId := Tool.deprecationReplacementId tool;
        Action.requirements := requirements;
        Action.outputTypeInstance := outputTypeInstance;
        Action.customIcon := customIcon;
        Action.arguments := default [] (params_by_tool !! Tool.rowId tool) |}.

(** Body of the second loop: [compiled[tool["id"]] = {...}]. *)
Definition compile_tool
    (tool_localizations : gmap sqlval ToolLocalization.row)
    (params_by_tool : gmap sqlval (list Argument.t))
    (compiled : gmap sqlval Action.t) (tool : Tool.row)
    : result (gmap sqlval Action.t) :=
  record ← tool_record tool_localizations params_by_tool tool;
  Ok (<[Tool.id tool := record]> compiled).

Definition build_payload
    (tools : list Tool.row)
    (tool_localizations : gmap sqlval ToolLocalization.row)
    (parameter_localizations : gmap (sqlval * sqlval) ParameterLocalization.row)
    (parameters : list Param.row) : result (gmap sqlval Action.t) :=
  params_by_tool ← for_each (group_parameter parameter_localizations) parameters ∅;
  for_each (compile_tool tool_localizations params_by_tool) tools ∅.

(** ** main *)

Record Args : Type := {
  db : string;
  output : string;
  locale : string;
  fallback_locale : string
}.

Record Metadata : Type := {
  generatedAt : string;
  metaLocale : string;
  fallbackLocale : string;
  sourceDatabase : string;
  actionCount : nat
}.

Record Payload : Type := {
  metadata : Metadata;
  actions : gmap sqlval Action.t
}.

(** What the process finds around it: which paths exist, what the store
    at a path holds ([None]: not a readable store, the first query
    raises), and the clock. *)
Record World : Type := {
  path_exists : string → bool;
  store : string → option Database;
  utc_now_isoformat : string
}.

(** What the process does to the world. *)
Inductive event : Type :=
  | Connect (path : string)
  | Close
  | Mkdir (path : string)
  | WriteText (path text : string).

(** Computations that log events and may raise. *)
Definition io (A : Type) : Type := list event → list event * result A.

#[global] Instance io_ret : MRet io := λ A a log, (log, Ok a).

#[global] Instance io_bind : MBind io := λ A B k m log,
  match m log with
  | (log', Ok a) => k a log'
  | (log', Raise e) => (log', Raise e)
  end.

Definition perform (ev : event) : io unit := λ log, (log ++ [ev], Ok tt).

Definition lift {A} (r : result A) : io A := λ log, (log, r).

(** [try: body finally: cleanup] *)
Definition try_finally {A} (body : io A) (cleanup : io unit) : io A := λ log,
  match body log with
  | (log', r) =>
      match cleanup log' with
      | (log'', Ok _) => (log'', r)
      | (log'', Raise e) => (log'', Raise e)
      end
  end.

Definition run {A} (m : io A) : list event * result A := m [].

(** Exit status of the interpreter for an outcome of [main]. *)
Definition exit_status {A} (r : result A) : Z :=
  match r with
  | Ok _ => 0%Z
  | Raise _ => 1%Z
  end.

Definition writes_output (ev : event) : bool :=
  match ev with
  | Mkdir _ | WriteText _ _ => true
  | _ => false
  end.

Section Main.
(** Library functions taken as given: [str(Path(s))], [Path(s).parent]
    and [json.dumps(payload, indent=2)]. *)
Variable path_str : string → string.
Variable path_parent : string → string.
Variable json_dumps : Payload → result string.

Definition fetch_all (conn : option Database) (args : Args)
    : result (list Tool.row * gmap sqlval ToolLocalization.row
              * gmap (sqlval * sqlval) ParameterLocalization.row
              * list Param.row) :=
  match conn with
  | None => Raise DatabaseError
  | Some conn =>
      let tools := fetch_tool_rows conn in
      match tools with
      | [] => Raise (SystemExit "No action tools found in the database.")
      | _ =>
          let tool_localizations :=
            fetch_tool_localizations conn (locale args) (Some (fallback_locale args)) in
          let parameter_localizations :=
            fetch_parameter_localizations conn (locale args) (Some (fallback_locale args)) in
          let parameters := fetch_parameters conn in
          Ok (tools, tool_localizations, parameter_localizations, parameters)
      end
  end.

Definition main (w : World) (args : Args) : io unit :=
  let db_path := db args in
  if negb (path_exists w db_path) then
    lift (Raise (SystemExit ("Database not found: " ++ path_str db_path)))
  else
    _ ← perform (Connect db_path);
    '(tools, tool_localizations, parameter_localizations, parameters) ←
      try_finally (lift (fetch_all (store w db_path) args)) (perform Close);
    compiled_actions ←
      lift (build_payload tools tool_localizations parameter_localizations parameters);
    let payload :=
      {| metadata :=
           {| generatedAt := utc_now_isoformat w;
              metaLocale := locale args;
              fallbackLocale := fallback_locale args;
              sourceDatabase := path_str db_path;
              actionCount := size compiled_actions |};
         actions := compiled_actions |} in
    let output_path := output args in
    _ ← perform (Mkdir (path_parent output_path));
    text ← lift (json_dumps payload);
    perform (WriteText output_path text).
End Main.

(** ** Statement vocabulary for the resolver *)

Section Resolution.
Context {K R : Type} `{Countable K}.
Variable key_of : R → K.

(** Some row of [rows] carries the key [k]. *)
Definition has_row (rows : list R) (k : K) : Prop :=
  ∃ r, r ∈ rows ∧ key_of r = k.

(** [m] maps [k] to a row of [rows] that carries [k]. *)
Definition maps_to_row_of (m : gmap K R) (k : K) (rows : list R) : Prop :=
  ∃ r, m !! k = Some r ∧ r ∈ rows ∧ key_of r = k.

(** The common shape of the two [fetch_*_localizations] functions, over
    the primary rows and, when the fallback pass runs, the fallback
    rows. *)
Definition resolve (primary : list R) (fallback : option (list R)) : gmap K R :=
  let localized := assign_all key_of primary ∅ in
  match fallback with
  | Some rows => setdefault_all key_of rows localized
  | None => localized
  end.
End Resolution.

(** ** Sample data for examples *)

Module Sample.
Definition tool (rowId : Z) (id : string) (toolType : string) : Tool.row :=
  {| Tool.rowId := SInt rowId; Tool.id := SText id;
     Tool.toolType := SText toolType;
     Tool.flags := SInt 0; Tool.visibilityFlags := SInt 0;
     Tool.requirements := SNull; Tool.authenticationPolicy := SInt 0;
     Tool.customIcon := SNull; Tool.deprecationReplacementId := SNull;
     Tool.sourceActionProvider := SNull; Tool.outputTypeInstance := SNull;
     Tool.sourceContainerId := SNull; Tool.attributionContainerId := SNull |}.

Definition tool_name (toolId : Z) (locale name : string) : ToolLocalization.row :=
  {| ToolLocalization.toolId := SInt toolId;
     ToolLocalization.locale := SText locale;
     ToolLocalization.name := SText name;
     ToolLocalization.descriptionSummary := SNull |}.

Definition parameter_name (toolId : Z) (key locale name : string)
    : ParameterLocalization.row :=
  {| ParameterLocalization.toolId := SInt toolId;
     ParameterLocalization.key := SText key;
     ParameterLocalization.locale := SText locale;
     ParameterLocalization.name := SText name;
     ParameterLocalization.description := SNull |}.

Definition parameter (toolId : Z) (key : string) (sortOrder : Z) : Param.row :=
  {| Param.toolId := SInt toolId; Param.key := SText key;
     Param.sortOrder := SInt sortOrder; Param.relationships := SNull;
     Param.flags := SInt 0; Param.typeId := SNull;
     Param.typeInstance := SNull; Param.typeIdentifier := SNull;
     Param.typeKind := SNull; Param.typeRuntimeFlags := SNull;
     Param.typeRuntimeRequirements := SNull |}.

(** Two action tools; tool 1 is named in French and English, tool 2 in
    English only, and likewise their parameters. *)
Definition bilingual : Database :=
  {| Tools := [tool 1 "com.example.one" "action"; tool 2 "com.example.two" "action"];
     ToolLocalizations :=
       [tool_name 1 "fr" "Un"; tool_name 1 "en" "One"; tool_name 2 "en" "Two"];
     ParameterLocalizations :=
       [parameter_name 1 "value" "fr" "Valeur";
        parameter_name 1 "value" "en" "Value";
        parameter_name 2 "value" "en" "Value"];
     ParameterRows := [];
     Types := [] |}.

(** One action tool whose only name is filed under the empty locale. *)
Definition unlabelled : Database :=
  {| Tools := [tool 1 "com.example.one" "action"];
     ToolLocalizations := [tool_name 1 "" "One"];
     ParameterLocalizations := [];
     ParameterRows := [];
     Types := [] |}.

Definition stored_parameter (toolId : Z) (key : string) (sortOrder : Z)
    (typeId : sqlval) : ParameterTable.row :=
  {| ParameterTable.toolId := SInt toolId;
     ParameterTable.key := SText key;
     ParameterTable.sortOrder := SInt sortOrder;
     ParameterTable.relationships := SBlob ["001"%byte];
     ParameterTable.flags := SInt 0;
     ParameterTable.typeId := typeId;
     ParameterTable.typeInstance := SNull |}.

Definition type_row (rowId kind : Z) : TypeTable.row :=
  {| TypeTable.rowId := SInt rowId;
     TypeTable.id := SBlob ["a"%byte];
     TypeTable.kind := SInt kind;
     TypeTable.runtimeFlags := SInt 0;
     TypeTable.runtimeRequirements := SNull |}.

(** Rows out of order, a tool that is not an action, a parameter with a
    type and one whose type reference dangles. *)
Definition shuffled : Database :=
  {| Tools := [tool 2 "com.example.two" "action"; tool 3 "com.example.x" "trigger";
               tool 1 "com.example.one" "action"];
     ToolLocalizations := [tool_name 1 "en" "One"];
     ParameterLocalizations := [];
     ParameterRows :=
       [stored_parameter 2 "b" 1 SNull; stored_parameter 1 "z" 3 (SInt 7);
        stored_parameter 1 "a" 3 (SInt 8); stored_parameter 3 "q" 0 SNull;
        stored_parameter 1 "c" 1 SNull];
     Types := [type_row 7 2] |}.

Definition world : World :=
  {| path_exists := λ path, String.eqb path "raw.sqlite";
     store := λ _, Some shuffled;
     utc_now_isoformat := "2025-01-01T00:00:00+00:00" |}.

Definition args : Args :=
  {| db := "raw.sqlite"; output := "out/compiled.json";
     locale := "en"; fallback_locale := "en" |}.
End Sample.

(** ** Statement vocabulary for the payload builder *)

(** The parameter rows owned by the tool with row identifier [rowId], in
    their input order. *)
Definition rows_of_tool (rowId : sqlval) (parameters : list Param.row) : list Param.row :=
  filter (λ p, Param.toolId p = rowId) parameters.

(** Well-formed input: every blob-typed column holds bytes or NULL. *)
Definition blob_or_null (v : sqlval) : bool :=
  match v with
  | SNull | SBlob _ => true
  | _ => false
  end.

Definition well_formed_tool (tool : Tool.row) : Prop :=
  blob_or_null (Tool.requirements tool)
  && blob_or_null (Tool.outputTypeInstance tool)
  && blob_or_null (Tool.customIcon tool) = true.

Definition well_formed_parameter (param : Param.row) : Prop :=
  blob_or_null (Param.relationships param)
  && blob_or_null (Param.typeInstance param)
  && blob_or_null (Param.typeRuntimeRequirements param)
  && blob_or_null (Param.typeIdentifier param) = true.

(** A parameter row that references no type: the reference and the joined
    type columns are all NULL. *)
Definition no_type (param : Param.row) : Prop :=
  Param.typeId param = SNull
  ∧ Param.typeIdentifier param = SNull
  ∧ Param.typeKind param = SNull
  ∧ Param.typeRuntimeFlags param = SNull
  ∧ Param.typeRuntimeRequirements param = SNull.

(** Order of an argument list: by [sortOrder], ties by [key]. *)
Definition argument_compare (a b : Argument.t) : comparison :=
  then_by (sql_compare (Argument.sortOrder a) (Argument.sortOrder b))
          (sql_compare (Argument.key a) (Argument.key b)).

Definition argument_le (a b : Argument.t) : Prop :=
  not_after (argument_compare a b).

(** A small catalog for examples. *)
Module Catalog.
Import Sample.
Definition tools : list Tool.row :=
  [tool 1 "com.example.one" "action"; tool 2 "com.example.two" "action"].

(** Tool 1 has a French name; tool 2 has a row whose name is empty. *)
Definition tool_localizations : gmap sqlval ToolLocalization.row :=
  <[SInt 1 := tool_name 1 "fr" "Un"]> (<[SInt 2 := tool_name 2 "en" ""]> ∅).

(** Parameter [a] is named, [b] has an empty name, [c] has no row. *)
Definition parameter_localizations
    : gmap (sqlval * sqlval) ParameterLocalization.row :=
  <[(SInt 1, SText "a") := parameter_name 1 "a" "fr" "Premier"]>
    (<[(SInt 1, SText "b") := parameter_name 1 "b" "fr" ""]> ∅).

(** Three parameters of tool 1 and one whose tool is not in [tools]. *)
Definition parameters : list Param.row :=
  [parameter 1 "a" 1; parameter 1 "b" 2; parameter 1 "c" 2; parameter 9 "z" 0].

Definition second_tool : Tool.row := tool 2 "com.example.two" "action".

Definition orphan : Param.row := parameter 9 "z" 0.

Definition compiled : result (gmap sqlval Action.t) :=
  build_payload tools tool_localizations parameter_localizations parameters.
End Catalog.

Module Deserted.
(** A store with one tool that is not an action, and a world that holds
    it at every path. *)
Definition database : Database :=
  {| Tools := [Sample.tool 1 "com.example.trigger" "trigger"];
     ToolLocalizations := [Sample.tool_name 1 "en" "Trigger"];
     ParameterLocalizations := [];
     ParameterRows := [];
     Types := [] |}.

Definition world : World :=
  {| path_exists := λ _, true;
     store := λ _, Some database;
     utc_now_isoformat := "2025-01-01T00:00:00+00:00" |}.

Definition args : Args :=
  {| db := "raw.sqlite"; output := "compiled.json";
     locale := "en"; fallback_locale := "en" |}.
End Deserted.

(** ** Enumerations used by exhaustive checks *)

(** The numbers below [k], in order. *)
Definition below (k : nat) : list N := map N.of_nat (seq 0 k).

(** ** Vocabulary and samples for further properties *)

(** The values [encode_blob] accepts: NULL, bytes, and the false values
    [0] and ['']. *)
Definition encodable (v : sqlval) : bool :=
  match v with
  | SNull | SBlob _ => true
  | SInt n => Z.eqb n 0
  | SText s => String.eqb s ""
  end.

(** An action tool of the store. *)
Definition is_action (tool : Tool.row) : Prop :=
  Tool.toolType tool = SText "action".

(** [ORDER BY rowId]. *)
Definition row_id_le (t u : Tool.row) : Prop :=
  not_after (sql_compare (Tool.rowId t) (Tool.rowId u)).

(** A fetched row carries the columns of a row of [Parameters]. *)
Definition same_parameter (p : Param.row) (row : ParameterTable.row) : Prop :=
  Param.toolId p = ParameterTable.toolId row
  ∧ Param.key p = ParameterTable.key row
  ∧ Param.sortOrder p = ParameterTable.sortOrder row
  ∧ Param.relationships p = ParameterTable.relationships row
  ∧ Param.flags p = ParameterTable.flags row
  ∧ Param.typeId p = ParameterTable.typeId row
  ∧ Param.typeInstance p = ParameterTable.typeInstance row.

(** The type columns of a fetched row are those of a row of [Types]. *)
Definition typed_by (p : Param.row) (ty : TypeTable.row) : Prop :=
  TypeTable.rowId ty = Param.typeId p
  ∧ Param.typeIdentifier p = TypeTable.id ty
  ∧ Param.typeKind p = TypeTable.kind ty
  ∧ Param.typeRuntimeFlags p = TypeTable.runtimeFlags ty
  ∧ Param.typeRuntimeRequirements p = TypeTable.runtimeRequirements ty.

(** The type columns of a fetched row are all NULL. *)
Definition untyped (p : Param.row) : Prop :=
  Param.typeIdentifier p = SNull
  ∧ Param.typeKind p = SNull
  ∧ Param.typeRuntimeFlags p = SNull
  ∧ Param.typeRuntimeRequirements p = SNull.

Definition tool_encodable (tool : Tool.row) : Prop :=
  encodable (Tool.requirements tool)
  && encodable (Tool.outputTypeInstance tool)
  && encodable (Tool.customIcon tool) = true.

Definition parameter_encodable (param : Param.row) : Prop :=
  encodable (Param.relationships param)
  && encodable (Param.typeInstance param)
  && encodable (Param.typeRuntimeRequirements param)
  && encodable (Param.typeIdentifier param) = true.

(** What a blob column becomes in the output: null for NULL, a text that
    decodes to the bytes for a blob, the empty string for [0] and ['']. *)
Definition blob_image (v : sqlval) (out : option string) : Prop :=
  match v with
  | SNull => out = None
  | SBlob b => ∃ s, out = Some s ∧ Base64.b64decode s = Ok b
  | _ => out = Some ""%string
  end.

(** What [main] compiles from an opened store: the four fetches feeding
    [build_payload]. *)
Definition compile_store (conn : Database) (args : Args)
    : result (gmap sqlval Action.t) :=
  build_payload (fetch_tool_rows conn)
    (fetch_tool_localizations conn (locale args) (Some (fallback_locale args)))
    (fetch_parameter_localizations conn (locale args) (Some (fallback_locale args)))
    (fetch_parameters conn).

(** The document [main] hands to [json.dumps]. *)
Definition document (path_str : string → string) (w : World) (args : Args)
    (compiled_actions : gmap sqlval Action.t) : Payload :=
  {| metadata :=
       {| generatedAt := utc_now_isoformat w;
          metaLocale := locale args;
          fallbackLocale := fallback_locale args;
          sourceDatabase := path_str (db args);
          actionCount := size compiled_actions |};
     actions := compiled_actions |}.



Module Odd.
(** Two tools that share a public identifier. *)
Definition twins : list Tool.row :=
  [Sample.tool 1 "com.example.twin" "action";
   Sample.tool 2 "com.example.twin" "action"].

(** A parameter of no tool whose [relationships] column holds text. *)
Definition faulty : Param.row :=
  {| Param.toolId := SInt 9; Param.key := SText "z";
     Param.sortOrder := SInt 0; Param.relationships := SText "oops";
     Param.flags := SInt 0; Param.typeId := SNull;
     Param.typeInstance := SNull; Param.typeIdentifier := SNull;
     Param.typeKind := SNull; Param.typeRuntimeFlags := SNull;
     Param.typeRuntimeRequirements := SNull |}.

(** The first row [fetch_parameters] returns for [Sample.shuffled]. *)
Definition fetched_c : Param.row :=
  {| Param.toolId := SInt 1; Param.key := SText "c";
     Param.sortOrder := SInt 1; Param.relationships := SBlob ["001"%byte];
     Param.flags := SInt 0; Param.typeId := SNull;
     Param.typeInstance := SNull; Param.typeIdentifier := SNull;
     Param.typeKind := SNull; Param.typeRuntimeFlags := SNull;
     Param.typeRuntimeRequirements := SNull |}.
End Odd.

(** * Properties *)

(** ** Exhaustive checks over octets and sextets *)

Lemma elem_below k n : n < N.of_nat k → In n (below k).
Proof.
  intros Hn. unfold below. apply in_map_iff. exists (N.to_nat n). split.
  - apply N2Nat.id.
  - apply in_seq. lia.
Qed.

Lemma check_below k (P : N → bool) :
  forallb P (below k) = true → ∀ n, n < N.of_nat k → P n = true.
Proof.
  intros Hall n Hn. rewrite forallb_forall in Hall. by apply Hall, elem_below.
Qed.

Lemma check_below2 k (P : N → N → bool) :
  forallb (λ a, forallb (P a) (below k)) (below k) = true →
  ∀ a b, a < N.of_nat k → b < N.of_nat k → P a b = true.
Proof.
  intros Hall a b Ha Hb.
  apply (check_below k (P a)); [|done].
  by apply (check_below k (λ a, forallb (P a) (below k))).
Qed.

Ltac octets1 :=
  let n := fresh "n" in let Hn := fresh "Hn" in
  intros n Hn; apply N.eqb_eq; revert n Hn;
  apply (check_below 256); vm_compute; reflexivity.

Ltac octets2 :=
  let n := fresh "n" in let m := fresh "m" in
  let Hn := fresh "Hn" in let Hm := fresh "Hm" in
  intros n m Hn Hm; apply N.eqb_eq; revert n m Hn Hm;
  apply (check_below2 256 (λ _ _, _ =? _)); vm_compute; reflexivity.

Module Base64Facts.
Import Base64.

Lemma to_N_lt b : Byte.to_N b < 256.
Proof. pose proof (Byte.to_N_bounded b). lia. Qed.

Lemma uchar_to_N b : uchar (Byte.to_N b) = b.
Proof.
  unfold uchar. rewrite N.mod_small by apply to_N_lt. by rewrite Byte.of_to_N.
Qed.

(** The two tables are inverse on sextets, and no sextet is written as
    the pad character. *)
Lemma a2b_b2a s : s < 64 → a2b (b2a s) = Some s.
Proof.
  intros Hs.
  assert (bool_decide (a2b (b2a s) = Some s) = true) as Hd.
  { revert s Hs. apply (check_below 64). vm_compute. reflexivity. }
  by apply bool_decide_eq_true in Hd.
Qed.

Lemma b2a_not_pad s : s < 64 → Byte.eqb (b2a s) BASE64_PAD = false.
Proof.
  intros Hs. apply negb_true_iff. revert s Hs.
  apply (check_below 64). vm_compute. reflexivity.
Qed.

Lemma b2a_is_ascii n : is_ascii (b2a n) = true.
Proof.
  unfold b2a.
  destruct (nth_in_or_default (N.to_nat n) table_b2a_base64 BASE64_PAD) as [Hin | ->].
  - assert (forallb is_ascii table_b2a_base64 = true) as Hall by (vm_compute; reflexivity).
    rewrite forallb_forall in Hall. by apply Hall.
  - reflexivity.
Qed.

(** Sextets of the encoder stay below 64. *)
Lemma sextet0_lt : ∀ n, n < 256 → (N.shiftr n 2 <? 64) = true.
Proof. apply (check_below 256). vm_compute. reflexivity. Qed.

Lemma sextet1_lt : ∀ n m, n < 256 → m < 256 →
  (N.lor (N.shiftl (N.land n 3) 4) (N.shiftr m 4) <? 64) = true.
Proof. apply (check_below2 256). vm_compute. reflexivity. Qed.

Lemma sextet1_tail_lt : ∀ n, n < 256 → (N.shiftl (N.land n 3) 4 <? 64) = true.
Proof. apply (check_below 256). vm_compute. reflexivity. Qed.

Lemma sextet2_lt : ∀ n m, n < 256 → m < 256 →
  (N.lor (N.shiftl (N.land n 15) 2) (N.shiftr m 6) <? 64) = true.
Proof. apply (check_below2 256). vm_compute. reflexivity. Qed.

Lemma sextet2_tail_lt : ∀ n, n < 256 → (N.shiftl (N.land n 15) 2 <? 64) = true.
Proof. apply (check_below 256). vm_compute. reflexivity. Qed.

Lemma sextet3_lt : ∀ n, n < 256 → (N.land n 63 <? 64) = true.
Proof. apply (check_below 256). vm_compute. reflexivity. Qed.

(** Reassembly of the octets from the sextets. *)
Lemma octet0 : ∀ n m, n < 256 → m < 256 →
  N.lor (N.shiftl (N.shiftr n 2) 2)
        (N.shiftr (N.lor (N.shiftl (N.land n 3) 4) (N.shiftr m 4)) 4) = n.
Proof. octets2. Qed.

Lemma octet0_tail : ∀ n, n < 256 →
  N.lor (N.shiftl (N.shiftr n 2) 2) (N.shiftr (N.shiftl (N.land n 3) 4) 4) = n.
Proof. octets1. Qed.

Lemma sextet1_low : ∀ n m, n < 256 → m < 256 →
  N.land (N.lor (N.shiftl (N.land n 3) 4) (N.shiftr m 4)) 15 = N.shiftr m 4.
Proof. octets2. Qed.

Lemma sextet2_high : ∀ n m, n < 256 → m < 256 →
  N.shiftr (N.lor (N.shiftl (N.land n 15) 2) (N.shiftr m 6)) 2 = N.land n 15.
Proof. octets2. Qed.

Lemma sextet2_low : ∀ n m, n < 256 → m < 256 →
  N.land (N.lor (N.shiftl (N.land n 15) 2) (N.shiftr m 6)) 3 = N.shiftr m 6.
Proof. octets2. Qed.

Lemma octet1 : ∀ n, n < 256 →
  N.lor (N.shiftl (N.shiftr n 4) 4) (N.land n 15) = n.
Proof. octets1. Qed.

Lemma octet1_tail : ∀ n, n < 256 →
  N.shiftr (N.shiftl (N.land n 15) 2) 2 = N.land n 15.
Proof. octets1. Qed.

Lemma octet2 : ∀ n, n < 256 →
  N.lor (N.shiftl (N.shiftr n 6) 6) (N.land n 63) = n.
Proof. octets1. Qed.
Lemma list_ind3 {A} (P : list A → Prop) :
  P [] → (∀ a, P [a]) → (∀ a b, P [a; b]) →
  (∀ a b c l, P l → P (a :: b :: c :: l)) → ∀ l, P l.
Proof.
  intros H0 H1 H2 H3.
  fix IH 1. intros [|a [|b [|c l]]]; [apply H0 | apply H1 | apply H2 | apply H3, IH].
Qed.

(** One quad of the decoder, started at a quad boundary. *)
Lemma a2b_base64_quad s0 s1 s2 s3 rest leftchar pads :
  s0 < 64 → s1 < 64 → s2 < 64 → s3 < 64 →
  a2b_base64 (b2a s0 :: b2a s1 :: b2a s2 :: b2a s3 :: rest) 0 leftchar pads =
  emit (uchar (N.lor (N.shiftl s0 2) (N.shiftr s1 4)))
    (emit (uchar (N.lor (N.shiftl (N.land s1 15) 4) (N.shiftr s2 2)))
      (emit (uchar (N.lor (N.shiftl (N.land s2 3) 6) s3))
        (a2b_base64 rest 0 0 0))).
Proof.
  intros H0 H1 H2 H3. cbn [a2b_base64].
  rewrite !b2a_not_pad, !a2b_b2a by done. reflexivity.
Qed.

Lemma a2b_base64_tail1 s0 s1 leftchar pads :
  s0 < 64 → s1 < 64 →
  a2b_base64 [b2a s0; b2a s1; BASE64_PAD; BASE64_PAD] 0 leftchar pads =
  Ok [uchar (N.lor (N.shiftl s0 2) (N.shiftr s1 4))].
Proof.
  intros H0 H1. cbn [a2b_base64].
  rewrite !b2a_not_pad, !a2b_b2a by done. reflexivity.
Qed.

Lemma a2b_base64_tail2 s0 s1 s2 leftchar pads :
  s0 < 64 → s1 < 64 → s2 < 64 →
  a2b_base64 [b2a s0; b2a s1; b2a s2; BASE64_PAD] 0 leftchar pads =
  Ok [uchar (N.lor (N.shiftl s0 2) (N.shiftr s1 4));
      uchar (N.lor (N.shiftl (N.land s1 15) 4) (N.shiftr s2 2))].
Proof.
  intros H0 H1 H2. cbn [a2b_base64].
  rewrite !b2a_not_pad, !a2b_b2a by done. reflexivity.
Qed.

Ltac sextet_bounds :=
  repeat match goal with
  | |- _ < 64 => apply N.ltb_lt
  | |- (N.shiftr _ 2 <? 64) = true => apply sextet0_lt
  | |- (N.lor (N.shiftl (N.land _ 3) 4) _ <? 64) = true => apply sextet1_lt
  | |- (N.shiftl (N.land _ 3) 4 <? 64) = true => apply sextet1_tail_lt
  | |- (N.lor (N.shiftl (N.land _ 15) 2) _ <? 64) = true => apply sextet2_lt
  | |- (N.shiftl (N.land _ 15) 2 <? 64) = true => apply sextet2_tail_lt
  | |- (N.land _ 63 <? 64) = true => apply sextet3_lt
  | |- Byte.to_N _ < 256 => apply to_N_lt
  end.

(** Decoding what the encoder wrote gives the octets back. *)
Lemma a2b_b2a_base64 bin : a2b_base64 (b2a_base64 bin) 0 0 0 = Ok bin.
Proof.
  induction bin as [|b0|b0 b1|b0 b1 b2 rest IH] using list_ind3.
  - reflexivity.
  - cbn [b2a_base64]. rewrite a2b_base64_tail1 by sextet_bounds.
    rewrite octet0_tail by sextet_bounds. by rewrite uchar_to_N.
  - cbn [b2a_base64]. rewrite a2b_base64_tail2 by sextet_bounds.
    rewrite octet0, sextet1_low, octet1_tail, octet1 by sextet_bounds.
    by rewrite !uchar_to_N.
  - cbn [b2a_base64]. rewrite a2b_base64_quad by sextet_bounds.
    rewrite IH.
    rewrite octet0, sextet1_low, sextet2_high, octet1, sextet2_low, octet2
      by sextet_bounds.
    by rewrite !uchar_to_N.
Qed.

Lemma b2a_base64_is_ascii bin : forallb is_ascii (b2a_base64 bin) = true.
Proof.
  induction bin as [|b0|b0 b1|b0 b1 b2 rest IH] using list_ind3;
    cbn [b2a_base64 forallb]; rewrite ?b2a_is_ascii, ?IH; reflexivity.
Qed.

Lemma decode_ascii_b64encode bin :
  decode_ascii (b64encode bin) = Ok (string_of_list_byte (b64encode bin)).
Proof. unfold decode_ascii, b64encode. by rewrite b2a_base64_is_ascii. Qed.

Lemma b64decode_b64encode bin :
  b64decode (string_of_list_byte (b64encode bin)) = Ok bin.
Proof.
  unfold b64decode, bytes_from_decode_data, b64encode.
  rewrite list_byte_of_string_of_list_byte, b2a_base64_is_ascii.
  apply a2b_b2a_base64.
Qed.
End Base64Facts.

Import Base64Facts.

Lemma encode_blob_bytes b0 b :
  encode_blob (Val (SBlob (b0 :: b))) =
  Ok (Some (string_of_list_byte (Base64.b64encode (b0 :: b)))).
Proof.
  unfold encode_blob. cbn [truthy negb].
  by rewrite decode_ascii_b64encode.
Qed.

(** ** encode_blob *)

(** C3. [encode_blob] sends null to null, the empty byte sequence to the
    empty string and any other byte sequence to its base64 text; decoding
    the text of any byte sequence gives the sequence back.  A memoryview
    is encoded as its bytes. *)
Theorem encode_blob_round_trip :
  encode_blob (Val SNull) = Ok None
  ∧ encode_blob (Val (SBlob [])) = Ok (Some ""%string)
  ∧ (∀ b0 b, encode_blob (Val (SBlob (b0 :: b))) =
             Ok (Some (string_of_list_byte (Base64.b64encode (b0 :: b)))))
  ∧ (∀ b, ∃ s, encode_blob (Val (SBlob b)) = Ok (Some s)
               ∧ Base64.b64decode s = Ok b)
  ∧ (∀ b, encode_blob (MemoryView b) = encode_blob (Val (SBlob b))).
Proof.
  split; [reflexivity|]. split; [reflexivity|].
  split; [apply encode_blob_bytes|]. split; [|reflexivity].
  intros [|b0 b].
  - exists ""%string. split; reflexivity.
  - eexists. split; [apply encode_blob_bytes|]. apply b64decode_b64encode.
Qed.

(** ** Locale resolver *)

Section ResolverFacts.
Context {K R : Type} `{Countable K}.
Variable key_of : R → K.

(** After the primary pass a key holds the last row that carries it. *)
Lemma assign_all_lookup (k : K) (rows : list R) (m : gmap K R) :
  assign_all key_of rows m !! k =
  match last (filter (λ r, key_of r = k) rows) with
  | Some r => Some r
  | None => m !! k
  end.
Proof.
  revert m. induction rows as [|r rows IH]; intros m; [done|].
  unfold assign_all in *. cbn [foldl]. rewrite IH.
  rewrite filter_cons. case_decide as Hk.
  - rewrite last_cons. destruct (last _); [done|].
    subst k. by rewrite lookup_insert_eq.
  - destruct (last _); [done|]. by rewrite lookup_insert_ne.
Qed.

(** The fallback pass keeps what is there and otherwise takes the first
    row that carries the key. *)
Lemma setdefault_all_lookup (k : K) (rows : list R) (m : gmap K R) :
  setdefault_all key_of rows m !! k =
  match m !! k with
  | Some r => Some r
  | None => head (filter (λ r, key_of r = k) rows)
  end.
Proof.
  revert m. induction rows as [|r rows IH]; intros m.
  - cbn. by destruct (m !! k).
  - unfold setdefault_all in *. cbn [foldl]. rewrite IH.
    rewrite filter_cons. case_decide as Hk.
    + subst k. destruct (m !! key_of r) eqn:Hm.
      * by rewrite Hm.
      * by rewrite lookup_insert_eq.
    + destruct (m !! key_of r) eqn:Hm; [done|].
      by rewrite lookup_insert_ne.
Qed.

Lemma last_filter_has_row rows k :
  has_row key_of rows k →
  ∃ r, last (filter (λ r, key_of r = k) rows) = Some r ∧ r ∈ rows ∧ key_of r = k.
Proof.
  intros (r & Hin & Hk).
  assert (r ∈ filter (λ r, key_of r = k) rows) as Hf by (by apply list_elem_of_filter).
  destruct (last (filter (λ r, key_of r = k) rows)) as [r'|] eqn:Hl.
  - exists r'. split; [done|]. apply last_Some_elem_of in Hl.
    by apply list_elem_of_filter in Hl as [? ?].
  - apply last_None in Hl. rewrite Hl in Hf. by apply elem_of_nil in Hf.
Qed.

Lemma head_filter_has_row rows k :
  has_row key_of rows k →
  ∃ r, head (filter (λ r, key_of r = k) rows) = Some r ∧ r ∈ rows ∧ key_of r = k.
Proof.
  intros (r & Hin & Hk).
  assert (r ∈ filter (λ r, key_of r = k) rows) as Hf by (by apply list_elem_of_filter).
  destruct (filter (λ r, key_of r = k) rows) as [|r' l] eqn:Hl.
  - by apply elem_of_nil in Hf.
  - exists r'. split; [done|].
    assert (r' ∈ filter (λ r, key_of r = k) rows) as Hr' by (rewrite Hl; left).
    by apply list_elem_of_filter in Hr' as [? ?].
Qed.

Lemma filter_no_row rows k :
  ¬ has_row key_of rows k → filter (λ r, key_of r = k) rows = [].
Proof.
  intros Hno. destruct (filter (λ r, key_of r = k) rows) as [|r l] eqn:Hl; [done|].
  exfalso. apply Hno. exists r.
  assert (r ∈ filter (λ r, key_of r = k) rows) as Hr by (rewrite Hl; left).
  by apply list_elem_of_filter in Hr as [? ?].
Qed.

Lemma resolve_primary primary fallback k :
  has_row key_of primary k → maps_to_row_of key_of (resolve key_of primary fallback) k primary.
Proof.
  intros Hrow. apply last_filter_has_row in Hrow as (r & Hl & Hin & Hk).
  exists r. split; [|done]. unfold resolve.
  destruct fallback; [rewrite setdefault_all_lookup|];
    by rewrite assign_all_lookup, Hl.
Qed.

Lemma resolve_fallback primary rows k :
  ¬ has_row key_of primary k → has_row key_of rows k →
  maps_to_row_of key_of (resolve key_of primary (Some rows)) k rows.
Proof.
  intros Hno Hrow. apply head_filter_has_row in Hrow as (r & Hh & Hin & Hk).
  exists r. split; [|done]. unfold resolve.
  rewrite setdefault_all_lookup, assign_all_lookup, filter_no_row by done.
  by rewrite lookup_empty.
Qed.

Lemma resolve_absent primary fallback k :
  ¬ has_row key_of primary k →
  (∀ rows, fallback = Some rows → ¬ has_row key_of rows k) →
  resolve key_of primary fallback !! k = None.
Proof.
  intros Hno Hfb. unfold resolve. destruct fallback as [rows|].
  - rewrite setdefault_all_lookup, assign_all_lookup, filter_no_row by done.
    rewrite lookup_empty. cbn. by rewrite filter_no_row by (by apply Hfb).
  - by rewrite assign_all_lookup, filter_no_row, lookup_empty.
Qed.
End ResolverFacts.

Lemma use_fallback_Some locale F f :
  use_fallback locale F = Some f ↔ F = Some f ∧ f ≠ ""%string ∧ f ≠ locale.
Proof.
  unfold use_fallback. destruct F as [g|]; cbn [truthy].
  - destruct (String.eqb_spec g ""), (String.eqb_spec g locale);
      cbn [negb andb]; intuition congruence.
  - intuition congruence.
Qed.

Lemma fetch_tool_localizations_resolve conn L F :
  fetch_tool_localizations conn L F =
  resolve ToolLocalization.toolId (query_tool_localizations conn L)
    (query_tool_localizations conn <$> use_fallback L F).
Proof. unfold fetch_tool_localizations, resolve. by destruct (use_fallback L F). Qed.

Lemma fetch_parameter_localizations_resolve conn L F :
  fetch_parameter_localizations conn L F =
  resolve parameter_localization_key (query_parameter_localizations conn L)
    (query_parameter_localizations conn <$> use_fallback L F).
Proof. unfold fetch_parameter_localizations, resolve. by destruct (use_fallback L F). Qed.

Section TwoTier.
Context {K R : Type} `{Countable K}.
Variable key_of : R → K.
Variable query : string → list R.

Lemma two_tier_resolution (L : string) (F : option string) (k : K) :
  let m := resolve key_of (query L) (query <$> use_fallback L F) in
  (has_row key_of (query L) k → maps_to_row_of key_of m k (query L))
  ∧ (∀ f, ¬ has_row key_of (query L) k →
          F = Some f → f ≠ ""%string → f ≠ L →
          has_row key_of (query f) k →
          maps_to_row_of key_of m k (query f))
  ∧ (¬ has_row key_of (query L) k →
     F = None ∨ F = Some ""%string ∨ F = Some L
     ∨ (∃ f, F = Some f ∧ ¬ has_row key_of (query f) k) →
     m !! k = None).
Proof.
  cbn zeta. split; [apply resolve_primary|]. split.
  - intros f Hno HF Hne HL Hrow.
    assert (use_fallback L F = Some f) as -> by (by apply use_fallback_Some).
    by apply resolve_fallback.
  - intros Hno Hcase. apply resolve_absent; [done|].
    intros rows Hrows.
    destruct (use_fallback L F) as [f|] eqn:Hf; [|done].
    apply use_fallback_Some in Hf as (HF & Hne & HL).
    injection Hrows as <-.
    destruct Hcase as [?|[?|[?|(g & ? & ?)]]]; congruence.
Qed.
End TwoTier.

(** C1 (amended).  For both the tool-level and the parameter-level map and
    every key: a key with a primary-locale row maps to a primary-locale
    row for it; a key with no primary-locale row but a fallback-locale
    row maps to a fallback row for it, provided the fallback locale is
    given, is not the empty string and differs from the primary locale; a
    key with no primary-locale row is absent when the fallback locale is
    not given, is empty, equals the primary locale or has no row for the
    key. *)
Theorem locale_resolution (conn : Database) (L : string) (F : option string) :
  (∀ k : sqlval,
     let query := query_tool_localizations conn in
     let m := fetch_tool_localizations conn L F in
     (has_row ToolLocalization.toolId (query L) k →
      maps_to_row_of ToolLocalization.toolId m k (query L))
     ∧ (∀ f, ¬ has_row ToolLocalization.toolId (query L) k →
             F = Some f → f ≠ ""%string → f ≠ L →
             has_row ToolLocalization.toolId (query f) k →
             maps_to_row_of ToolLocalization.toolId m k (query f))
     ∧ (¬ has_row ToolLocalization.toolId (query L) k →
        F = None ∨ F = Some ""%string ∨ F = Some L
        ∨ (∃ f, F = Some f ∧ ¬ has_row ToolLocalization.toolId (query f) k) →
        m !! k = None))
  ∧ (∀ k : sqlval * sqlval,
     let query := query_parameter_localizations conn in
     let m := fetch_parameter_localizations conn L F in
     (has_row parameter_localization_key (query L) k →
      maps_to_row_of parameter_localization_key m k (query L))
     ∧ (∀ f, ¬ has_row parameter_localization_key (query L) k →
             F = Some f → f ≠ ""%string → f ≠ L →
             has_row parameter_localization_key (query f) k →
             maps_to_row_of parameter_localization_key m k (query f))
     ∧ (¬ has_row parameter_localization_key (query L) k →
        F = None ∨ F = Some ""%string ∨ F = Some L
        ∨ (∃ f, F = Some f ∧ ¬ has_row parameter_localization_key (query f) k) →
        m !! k = None)).
Proof.
  split; intros k; cbn zeta.
  - rewrite fetch_tool_localizations_resolve.
    apply (two_tier_resolution ToolLocalization.toolId (query_tool_localizations conn)).
  - rewrite fetch_parameter_localizations_resolve.
    apply (two_tier_resolution parameter_localization_key
             (query_parameter_localizations conn)).
Qed.


Example fr_rows :
  query_tool_localizations Sample.bilingual "fr" = [Sample.tool_name 1 "fr" "Un"].
Proof. vm_compute. reflexivity. Qed.

Example en_rows :
  query_tool_localizations Sample.bilingual "en" =
  [Sample.tool_name 1 "en" "One"; Sample.tool_name 2 "en" "Two"].
Proof. vm_compute. reflexivity. Qed.

Example fr_en_lookup_1 :
  fetch_tool_localizations Sample.bilingual "fr" (Some "en"%string) !! SInt 1
  = Some (Sample.tool_name 1 "fr" "Un").
Proof. vm_compute. reflexivity. Qed.

Example fr_en_lookup_2 :
  fetch_tool_localizations Sample.bilingual "fr" (Some "en"%string) !! SInt 2
  = Some (Sample.tool_name 2 "en" "Two").
Proof. vm_compute. reflexivity. Qed.

(** C1 as stated fails when the fallback locale is the empty string. *)
Lemma locale_resolution_empty_fallback :
  ¬ (∀ (conn : Database) (L f : string) (k : sqlval),
       ¬ has_row ToolLocalization.toolId (query_tool_localizations conn L) k →
       f ≠ L →
       has_row ToolLocalization.toolId (query_tool_localizations conn f) k →
       maps_to_row_of ToolLocalization.toolId
         (fetch_tool_localizations conn L (Some f)) k
         (query_tool_localizations conn f)).
Proof.
  intros Hclaim.
  destruct (Hclaim Sample.unlabelled "en"%string ""%string (SInt 1))
    as (r & Hr & _).
  - intros (r & Hin & _). vm_compute in Hin. by apply elem_of_nil in Hin.
  - discriminate.
  - exists (Sample.tool_name 1 "" "One"). split; [|reflexivity].
    vm_compute. left.
  - vm_compute in Hr. discriminate.
Qed.

(** The resolution theorem on the sample store, French with English fallback. *)
Lemma locale_resolution_witness :
  maps_to_row_of ToolLocalization.toolId
    (fetch_tool_localizations Sample.bilingual "fr" (Some "en"%string)) (SInt 1)
    (query_tool_localizations Sample.bilingual "fr")
  ∧ maps_to_row_of ToolLocalization.toolId
      (fetch_tool_localizations Sample.bilingual "fr" (Some "en"%string)) (SInt 2)
      (query_tool_localizations Sample.bilingual "en")
  ∧ fetch_tool_localizations Sample.bilingual "fr" (Some "fr"%string) !! SInt 2 = None
  ∧ maps_to_row_of parameter_localization_key
      (fetch_parameter_localizations Sample.bilingual "fr" (Some "en"%string))
      (SInt 1, SText "value")
      (query_parameter_localizations Sample.bilingual "fr")
  ∧ maps_to_row_of parameter_localization_key
      (fetch_parameter_localizations Sample.bilingual "fr" (Some "en"%string))
      (SInt 2, SText "value")
      (query_parameter_localizations Sample.bilingual "en")
  ∧ fetch_parameter_localizations Sample.bilingual "fr" None
      !! (SInt 2, SText "value") = None.
Proof.
  assert (¬ has_row ToolLocalization.toolId
            (query_tool_localizations Sample.bilingual "fr") (SInt 2)) as Hno.
  { intros (r & Hin & Hk). vm_compute in Hin.
    apply list_elem_of_singleton in Hin. by subst r. }
  assert (¬ has_row parameter_localization_key
            (query_parameter_localizations Sample.bilingual "fr")
            (SInt 2, SText "value")) as Hno'.
  { intros (r & Hin & Hk). vm_compute in Hin.
    apply list_elem_of_singleton in Hin. by subst r. }
  pose proof (locale_resolution Sample.bilingual "fr" (Some "en"%string)) as [Ht Hp].
  pose proof (locale_resolution Sample.bilingual "fr" (Some "fr"%string)) as [Ht' _].
  pose proof (locale_resolution Sample.bilingual "fr" None) as [_ Hp'].
  refine (conj _ (conj _ (conj _ (conj _ (conj _ _))))).
  - apply (proj1 (Ht (SInt 1))).
    exists (Sample.tool_name 1 "fr" "Un"). split; [vm_compute; left | reflexivity].
  - apply (proj1 (proj2 (Ht (SInt 2))) "en"%string);
      [done | reflexivity | discriminate | discriminate |].
    exists (Sample.tool_name 2 "en" "Two").
    split; [vm_compute; right; left | reflexivity].
  - apply (proj2 (proj2 (Ht' (SInt 2)))); [done|].
    right. right. by left.
  - apply (proj1 (Hp (SInt 1, SText "value"))).
    exists (Sample.parameter_name 1 "value" "fr" "Valeur").
    split; [vm_compute; left | reflexivity].
  - apply (proj1 (proj2 (Hp (SInt 2, SText "value"))) "en"%string);
      [done | reflexivity | discriminate | discriminate |].
    exists (Sample.parameter_name 2 "value" "en" "Value").
    split; [vm_compute; right; left | reflexivity].
  - apply (proj2 (proj2 (Hp' (SInt 2, SText "value")))); [done|]. by left.
Defined.

(** ** Payload builder *)

Lemma bind_Ok {A B} (r : result A) (k : A → result B) (b : B) :
  (a ← r; k a) = Ok b ↔ ∃ a, r = Ok a ∧ k a = Ok b.
Proof.
  destruct r as [a|e]; cbn.
  - split; [by exists a | by intros (? & [= <-] & ?)].
  - split; [done | by intros (? & ? & _)].
Qed.

Lemma for_each_cons {A S} (body : S → A → result S) x xs s s'' :
  for_each body (x :: xs) s = Ok s'' ↔
  ∃ s', body s x = Ok s' ∧ for_each body xs s' = Ok s''.
Proof. cbn [for_each]. apply bind_Ok. Qed.

Lemma for_each_total {A S} (body : S → A → result S) xs s :
  (∀ s x, x ∈ xs → ∃ s', body s x = Ok s') → ∃ s', for_each body xs s = Ok s'.
Proof.
  revert s. induction xs as [|x xs IH]; intros s Hbody; [by exists s|].
  destruct (Hbody s x) as [s' Hs']; [left|].
  destruct (IH s') as [s'' Hs'']; [intros; apply Hbody; by right|].
  exists s''. apply for_each_cons. eauto.
Qed.

Section Builder.
Variable tool_localizations : gmap sqlval ToolLocalization.row.
Variable parameter_localizations : gmap (sqlval * sqlval) ParameterLocalization.row.

Lemma group_parameter_lookup parameters m0 m k :
  for_each (group_parameter parameter_localizations) parameters m0 = Ok m →
  ∃ records,
    Forall2 (λ p a, argument_record parameter_localizations p = Ok a)
            (rows_of_tool k parameters) records
    ∧ default [] (m !! k) = default [] (m0 !! k) ++ records.
Proof.
  revert m0. induction parameters as [|p ps IH]; intros m0 Hrun.
  - injection Hrun as <-. exists []. split; [constructor|]. by rewrite app_nil_r.
  - apply for_each_cons in Hrun as (m1 & Hstep & Hrun).
    apply bind_Ok in Hstep as (a & Ha & [= <-]).
    destruct (IH _ Hrun) as (records & Hrec & Hm).
    unfold rows_of_tool in *. rewrite filter_cons. case_decide as Hk.
    + exists (a :: records). split; [by constructor|].
      rewrite Hm, Hk, lookup_insert_eq. cbn. by rewrite <- app_assoc.
    + exists records. split; [done|]. by rewrite Hm, lookup_insert_ne.
Qed.

Lemma compile_tool_lookup params_by_tool tools c0 c id :
  for_each (compile_tool tool_localizations params_by_tool) tools c0 = Ok c →
  match last (filter (λ t, Tool.id t = id) tools) with
  | Some t => ∃ record,
      tool_record tool_localizations params_by_tool t = Ok record
      ∧ c !! id = Some record
  | None => c !! id = c0 !! id
  end.
Proof.
  revert c0. induction tools as [|t ts IH]; intros c0 Hrun.
  - by injection Hrun as <-.
  - apply for_each_cons in Hrun as (c1 & Hstep & Hrun).
    apply bind_Ok in Hstep as (record & Hrecord & [= <-]).
    specialize (IH _ Hrun). rewrite filter_cons. case_decide as Hid.
    + rewrite last_cons. destruct (last _); [done|].
      exists record. split; [done|]. by rewrite IH, Hid, lookup_insert_eq.
    + destruct (last _); [done|]. by rewrite IH, lookup_insert_ne.
Qed.

(** Where every entry of the compiled map comes from. *)
Lemma build_payload_provenance tools parameters compiled id record :
  build_payload tools tool_localizations parameter_localizations parameters
    = Ok compiled →
  compiled !! id = Some record →
  ∃ t params_by_tool,
    t ∈ tools ∧ Tool.id t = id
    ∧ tool_record tool_localizations params_by_tool t = Ok record
    ∧ Forall2 (λ p a, argument_record parameter_localizations p = Ok a)
              (rows_of_tool (Tool.rowId t) parameters)
              (Action.arguments record).
Proof.
  intros Hbuild Hid. unfold build_payload in Hbuild.
  apply bind_Ok in Hbuild as (params_by_tool & Hgroup & Hcompile).
  pose proof (compile_tool_lookup _ _ _ _ id Hcompile) as Hlast.
  destruct (last _) as [t|] eqn:Ht.
  - destruct Hlast as (record' & Hrecord & Hid').
    assert (record' = record) as -> by congruence.
    apply last_Some_elem_of, list_elem_of_filter in Ht as [Hkey Hin].
    exists t, params_by_tool. split; [done|]. split; [done|]. split; [done|].
    destruct (group_parameter_lookup _ _ _ (Tool.rowId t) Hgroup)
      as (records & Hrecords & Hm).
    rewrite lookup_empty in Hm. cbn in Hm.
    apply bind_Ok in Hrecord as (? & _ & Hrecord).
    apply bind_Ok in Hrecord as (? & _ & Hrecord).
    apply bind_Ok in Hrecord as (? & _ & [= <-]).
    cbn. by rewrite Hm.
  - rewrite Hlast, lookup_empty in Hid. discriminate.
Qed.

End Builder.

Lemma filter_other_keys {A B} `{EqDecision B} (f : A → B) (l : list A) (b : B) :
  b ∉ f <$> l → filter (λ y, f y = b) l = [].
Proof.
  induction l as [|y l IH]; intros Hb; [done|].
  rewrite fmap_cons in Hb. apply not_elem_of_cons in Hb as [Hy Hb].
  rewrite filter_cons, decide_False by done. by apply IH.
Qed.

(** Among rows with distinct keys, a row is the only one with its key. *)
Lemma filter_same_key {A B} `{EqDecision B} (f : A → B) (l : list A) (x : A) :
  NoDup (f <$> l) → x ∈ l → filter (λ y, f y = f x) l = [x].
Proof.
  induction l as [|y l IH]; intros Hnd Hin; [by apply elem_of_nil in Hin|].
  rewrite fmap_cons in Hnd. apply NoDup_cons in Hnd as [Hy Hnd].
  rewrite filter_cons. apply elem_of_cons in Hin as [->|Hin].
  - rewrite decide_True by done. f_equal. by apply filter_other_keys.
  - rewrite decide_False; [by apply IH|].
    intros Heq. apply Hy. rewrite Heq. by apply list_elem_of_fmap_2.
Qed.

Section BuilderEntries.
Variable tool_localizations : gmap sqlval ToolLocalization.row.
Variable parameter_localizations : gmap (sqlval * sqlval) ParameterLocalization.row.

(** With distinct public identifiers every tool has its own entry. *)
Lemma build_payload_entry tools parameters compiled t :
  NoDup (Tool.id <$> tools) → t ∈ tools →
  build_payload tools tool_localizations parameter_localizations parameters
    = Ok compiled →
  ∃ record params_by_tool,
    compiled !! Tool.id t = Some record
    ∧ tool_record tool_localizations params_by_tool t = Ok record
    ∧ Forall2 (λ p a, argument_record parameter_localizations p = Ok a)
              (rows_of_tool (Tool.rowId t) parameters)
              (Action.arguments record).
Proof.
  intros Hnd Hin Hbuild.
  pose proof Hbuild as Hbuild'. unfold build_payload in Hbuild'.
  apply bind_Ok in Hbuild' as (params_by_tool & Hgroup & Hcompile).
  pose proof (compile_tool_lookup _ _ _ _ _ (Tool.id t) Hcompile) as Hlast.
  rewrite (filter_same_key Tool.id) in Hlast by done. cbn in Hlast.
  destruct Hlast as (record & Hrecord & Hid).
  destruct (build_payload_provenance _ _ _ _ _ _ _ Hbuild Hid)
    as (t' & pbt' & Hin' & Hid' & Hrecord' & Hargs).
  assert (t' = t) as ->.
  { assert (t' ∈ filter (λ y, Tool.id y = Tool.id t) tools) as Ht'
      by (by apply list_elem_of_filter).
    rewrite (filter_same_key Tool.id) in Ht' by done.
    by apply list_elem_of_singleton in Ht'. }
  by exists record, pbt'.
Qed.

Lemma encode_blob_total v :
  blob_or_null v = true → ∃ text, encode_blob (Val v) = Ok text.
Proof.
  destruct v as [| | |[|b0 b]]; try done; intros _.
  - by exists None.
  - by exists (Some ""%string).
  - eexists. apply encode_blob_bytes.
Qed.

Lemma argument_record_total param :
  well_formed_parameter param →
  ∃ a, argument_record parameter_localizations param = Ok a.
Proof.
  unfold well_formed_parameter. rewrite !andb_true_iff.
  intros [[[H1 H2] H3] H4].
  apply encode_blob_total in H1 as [t1 H1], H2 as [t2 H2],
    H3 as [t3 H3], H4 as [t4 H4].
  unfold argument_record. rewrite H1, H2, H3, H4. cbn. eauto.
Qed.

Lemma tool_record_total params_by_tool tool :
  well_formed_tool tool →
  ∃ record, tool_record tool_localizations params_by_tool tool = Ok record.
Proof.
  unfold well_formed_tool. rewrite !andb_true_iff.
  intros [[H1 H2] H3].
  apply encode_blob_total in H1 as [t1 H1], H2 as [t2 H2], H3 as [t3 H3].
  unfold tool_record. rewrite H1, H2, H3. cbn. eauto.
Qed.
End BuilderEntries.

Lemma build_payload_has_entry
    tools tool_localizations parameter_localizations parameters compiled tool :
  build_payload tools tool_localizations parameter_localizations parameters
    = Ok compiled →
  tool ∈ tools → is_Some (compiled !! Tool.id tool).
Proof.
  intros Hbuild Hin. unfold build_payload in Hbuild.
  apply bind_Ok in Hbuild as (params_by_tool & _ & Hcompile).
  pose proof (compile_tool_lookup _ _ _ _ _ (Tool.id tool) Hcompile) as Hlast.
  destruct (last_filter_has_row Tool.id tools (Tool.id tool)) as (t & Ht & _);
    [by exists tool|].
  rewrite Ht in Hlast. destruct Hlast as (record & _ & ->). eauto.
Qed.

(** C7.  On well-formed input, where every blob-typed column of every tool
    row and parameter row holds bytes or NULL, [build_payload] returns a
    compiled map and raises nothing, whatever the localization maps hold;
    the map has an entry for the public identifier of every tool. *)
Theorem build_payload_total tools tool_localizations parameter_localizations parameters :
  Forall well_formed_tool tools →
  Forall well_formed_parameter parameters →
  ∃ compiled,
    build_payload tools tool_localizations parameter_localizations parameters
      = Ok compiled
    ∧ ∀ tool, tool ∈ tools → is_Some (compiled !! Tool.id tool).
Proof.
  intros Htools Hparams.
  assert (∃ compiled,
            build_payload tools tool_localizations parameter_localizations
              parameters = Ok compiled) as [compiled Hbuild].
  { unfold build_payload.
    destruct (for_each_total (group_parameter parameter_localizations) parameters ∅)
      as [params_by_tool Hgroup].
    { intros m p Hp. rewrite Forall_forall in Hparams.
      destruct (argument_record_total parameter_localizations p) as [a Ha];
        [by apply Hparams|].
      unfold group_parameter. rewrite Ha. cbn. eauto. }
    rewrite Hgroup. cbn.
    apply for_each_total. intros c t Ht. rewrite Forall_forall in Htools.
    destruct (tool_record_total tool_localizations params_by_tool t) as [r Hr];
      [by apply Htools|].
    unfold compile_tool. rewrite Hr. cbn. eauto. }
  exists compiled. split; [done|].
  intros tool Hin. by eapply build_payload_has_entry.
Qed.

Section Fields.
Variable tool_localizations : gmap sqlval ToolLocalization.row.
Variable parameter_localizations : gmap (sqlval * sqlval) ParameterLocalization.row.

Lemma argument_record_fields param a :
  argument_record parameter_localizations param = Ok a →
  let localized :=
    parameter_localizations !! (Param.toolId param, Param.key param) in
  Argument.key a = Param.key param
  ∧ Argument.name a =
      py_or (column_or_none ParameterLocalization.name localized) (Param.key param)
  ∧ Argument.description a =
      column_or_none ParameterLocalization.description localized
  ∧ Argument.sortOrder a = Param.sortOrder param
  ∧ Argument.flags a = Param.flags param
  ∧ encode_blob (Val (Param.relationships param)) = Ok (Argument.relationships a)
  ∧ encode_blob (Val (Param.typeInstance param)) = Ok (Argument.typeInstance a)
  ∧ TypeRecord.rowId (Argument.type a) = Param.typeId param
  ∧ TypeRecord.kind (Argument.type a) = Param.typeKind param
  ∧ TypeRecord.runtimeFlags (Argument.type a) = Param.typeRuntimeFlags param
  ∧ encode_blob (Val (Param.typeRuntimeRequirements param))
      = Ok (TypeRecord.runtimeRequirements (Argument.type a))
  ∧ encode_blob (Val (Param.typeIdentifier param))
      = Ok (TypeRecord.encodedId (Argument.type a)).
Proof.
  intros Ha. unfold argument_record in Ha.
  apply bind_Ok in Ha as (t1 & H1 & Ha).
  apply bind_Ok in Ha as (t2 & H2 & Ha).
  apply bind_Ok in Ha as (t3 & H3 & Ha).
  apply bind_Ok in Ha as (t4 & H4 & [= <-]).
  cbn. by repeat split.
Qed.

Lemma tool_record_fields params_by_tool tool record :
  tool_record tool_localizations params_by_tool tool = Ok record →
  let localized := tool_localizations !! Tool.rowId tool in
  Action.rowId record = Tool.rowId tool
  ∧ Action.name record =
      py_or (column_or_none ToolLocalization.name localized) (Tool.id tool)
  ∧ Action.description record =
      column_or_none ToolLocalization.descriptionSummary localized
  ∧ Action.arguments record = default [] (params_by_tool !! Tool.rowId tool).
Proof.
  intros Hr. unfold tool_record in Hr.
  apply bind_Ok in Hr as (t1 & H1 & Hr).
  apply bind_Ok in Hr as (t2 & H2 & Hr).
  apply bind_Ok in Hr as (t3 & H3 & [= <-]).
  cbn. by repeat split.
Qed.
End Fields.

(** What [(localized[col] if localized else None) or own] evaluates to. *)
Lemma py_or_column_truthy {R} (col : R → sqlval) (localized : option R) own row :
  localized = Some row → truthy (col row) = true →
  py_or (column_or_none col localized) own = col row.
Proof. intros -> Ht. unfold py_or. cbn. by rewrite Ht. Qed.

Lemma py_or_column_falsy {R} (col : R → sqlval) (localized : option R) own :
  localized = None ∨ (∃ row, localized = Some row ∧ truthy (col row) = false) →
  py_or (column_or_none col localized) own = own.
Proof. intros [->|(row & -> & Hf)]; unfold py_or; cbn; [done|]. by rewrite Hf. Qed.

(** C2 (amended).  Every record of the compiled map comes from a tool of
    the input with that public identifier; its [name] is the resolved
    localization's name when that name is true as a Python condition
    (neither null nor empty), and the tool's own public identifier when no
    localization was resolved or the resolved name is null or empty.  The
    same holds, argument by argument, for a parameter's [name] and its
    [key]. *)
Theorem default_name_substitution
    tools tool_localizations parameter_localizations parameters compiled id record :
  build_payload tools tool_localizations parameter_localizations parameters
    = Ok compiled →
  compiled !! id = Some record →
  ∃ tool, tool ∈ tools ∧ Tool.id tool = id
    ∧ (∀ l, tool_localizations !! Tool.rowId tool = Some l →
            truthy (ToolLocalization.name l) = true →
            Action.name record = ToolLocalization.name l)
    ∧ (tool_localizations !! Tool.rowId tool = None
       ∨ (∃ l, tool_localizations !! Tool.rowId tool = Some l
               ∧ truthy (ToolLocalization.name l) = false) →
       Action.name record = Tool.id tool)
    ∧ Forall2
        (λ param a,
           let localized :=
             parameter_localizations !! (Param.toolId param, Param.key param) in
           (∀ l, localized = Some l →
                 truthy (ParameterLocalization.name l) = true →
                 Argument.name a = ParameterLocalization.name l)
           ∧ (localized = None
              ∨ (∃ l, localized = Some l
                      ∧ truthy (ParameterLocalization.name l) = false) →
              Argument.name a = Param.key param))
        (rows_of_tool (Tool.rowId tool) parameters)
        (Action.arguments record).
Proof.
  intros Hbuild Hid.
  destruct (build_payload_provenance _ _ _ _ _ _ _ Hbuild Hid)
    as (tool & pbt & Hin & Hkey & Hrecord & Hargs).
  apply tool_record_fields in Hrecord as (_ & Hname & _).
  exists tool. split; [done|]. split; [done|]. split; [|split].
  - intros l Hl Ht. rewrite Hname. by apply py_or_column_truthy.
  - intros Hcase. rewrite Hname. by apply py_or_column_falsy.
  - eapply Forall2_impl; [exact Hargs|]. intros param a Ha. cbn zeta.
    apply argument_record_fields in Ha as (_ & Hname' & _). split.
    + intros l Hl Ht. rewrite Hname'. by apply py_or_column_truthy.
    + intros Hcase. rewrite Hname'. by apply py_or_column_falsy.
Qed.

(** C9.  A resolved localization whose name is the empty string also
    triggers the substitution: the tool record's [name] is the tool's
    public identifier, and an argument's [name] is the parameter's key. *)
Theorem empty_name_substitution
    tools tool_localizations parameter_localizations parameters compiled id record :
  build_payload tools tool_localizations parameter_localizations parameters
    = Ok compiled →
  compiled !! id = Some record →
  ∃ tool, tool ∈ tools ∧ Tool.id tool = id
    ∧ (∀ l, tool_localizations !! Tool.rowId tool = Some l →
            ToolLocalization.name l = SText "" →
            Action.name record = Tool.id tool)
    ∧ Forall2
        (λ param a,
           ∀ l, parameter_localizations !! (Param.toolId param, Param.key param)
                  = Some l →
                ParameterLocalization.name l = SText "" →
                Argument.name a = Param.key param)
        (rows_of_tool (Tool.rowId tool) parameters)
        (Action.arguments record).
Proof.
  intros Hbuild Hid.
  destruct (build_payload_provenance _ _ _ _ _ _ _ Hbuild Hid)
    as (tool & pbt & Hin & Hkey & Hrecord & Hargs).
  apply tool_record_fields in Hrecord as (_ & Hname & _).
  exists tool. split; [done|]. split; [done|]. split.
  - intros l Hl Hempty. rewrite Hname. apply py_or_column_falsy.
    right. exists l. by rewrite Hempty.
  - eapply Forall2_impl; [exact Hargs|]. intros param a Ha l Hl Hempty.
    apply argument_record_fields in Ha as (_ & Hname' & _).
    rewrite Hname'. apply py_or_column_falsy.
    right. exists l. by rewrite Hempty.
Qed.

(** C6.  For a parameter row that references no type, the nested [type]
    object of its argument record has [rowId], [kind], [runtimeFlags],
    [runtimeRequirements] and [encodedId] all null. *)
Theorem type_absence
    tools tool_localizations parameter_localizations parameters compiled id record :
  build_payload tools tool_localizations parameter_localizations parameters
    = Ok compiled →
  compiled !! id = Some record →
  ∃ tool, tool ∈ tools ∧ Tool.id tool = id
    ∧ Forall2
        (λ param a,
           no_type param →
           Argument.type a =
             {| TypeRecord.rowId := SNull;
                TypeRecord.kind := SNull;
                TypeRecord.runtimeFlags := SNull;
                TypeRecord.runtimeRequirements := None;
                TypeRecord.encodedId := None |})
        (rows_of_tool (Tool.rowId tool) parameters)
        (Action.arguments record).
Proof.
  intros Hbuild Hid.
  destruct (build_payload_provenance _ _ _ _ _ _ _ Hbuild Hid)
    as (tool & pbt & Hin & Hkey & Hrecord & Hargs).
  exists tool. split; [done|]. split; [done|].
  eapply Forall2_impl; [exact Hargs|].
  intros param a Ha (Hid' & Hident & Hkind & Hflags & Hreq).
  apply argument_record_fields in Ha
    as (_ & _ & _ & _ & _ & _ & _ & H1 & H2 & H3 & H4 & H5).
  rewrite Hreq in H4. rewrite Hident in H5. cbn in H4, H5.
  destruct (Argument.type a) as [r k f q e]. cbn in *.
  congruence.
Qed.

Lemma rows_of_tool_nil rowId parameters :
  (∀ p, p ∈ parameters → Param.toolId p ≠ rowId) →
  rows_of_tool rowId parameters = [].
Proof.
  intros Hnone. unfold rows_of_tool.
  destruct (filter _ parameters) as [|p l] eqn:Hf; [done|].
  assert (p ∈ filter (λ p, Param.toolId p = rowId) parameters) as Hp
    by (rewrite Hf; left).
  apply list_elem_of_filter in Hp as [Howner Hp]. by destruct (Hnone p Hp).
Qed.

Lemma Forall2_elem_of_l {A B} (P : A → B → Prop) l k x :
  Forall2 P l k → x ∈ l → ∃ y, y ∈ k ∧ P x y.
Proof.
  intros HF Hx. apply list_elem_of_lookup in Hx as [i Hi].
  destruct (Forall2_lookup_l _ _ _ _ _ HF Hi) as (y & Hy & HP).
  exists y. split; [|done]. apply list_elem_of_lookup. eauto.
Qed.

(** C5.  With distinct row identifiers and distinct public identifiers,
    every tool has a record under its public identifier whose [arguments]
    are, one for one and in order, the records of the parameter rows it
    owns; such a row belongs to the rows of no other tool; and a tool that
    owns no parameter row has the empty list as [arguments]. *)
Theorem grouping_completeness
    tools tool_localizations parameter_localizations parameters compiled tool :
  NoDup (Tool.rowId <$> tools) →
  NoDup (Tool.id <$> tools) →
  build_payload tools tool_localizations parameter_localizations parameters
    = Ok compiled →
  tool ∈ tools →
  ∃ record,
    compiled !! Tool.id tool = Some record
    ∧ Action.rowId record = Tool.rowId tool
    ∧ Forall2 (λ p a, argument_record parameter_localizations p = Ok a)
              (rows_of_tool (Tool.rowId tool) parameters)
              (Action.arguments record)
    ∧ (∀ p, p ∈ parameters → Param.toolId p = Tool.rowId tool →
            p ∈ rows_of_tool (Tool.rowId tool) parameters
            ∧ ∀ other, other ∈ tools →
                       p ∈ rows_of_tool (Tool.rowId other) parameters →
                       other = tool)
    ∧ ((∀ p, p ∈ parameters → Param.toolId p ≠ Tool.rowId tool) →
       Action.arguments record = []).
Proof.
  intros Hrows Hids Hbuild Hin.
  destruct (build_payload_entry _ _ _ _ _ _ Hids Hin Hbuild)
    as (record & pbt & Hid & Hrecord & Hargs).
  exists record. split; [done|].
  split; [by apply tool_record_fields in Hrecord as (? & _)|].
  split; [done|]. split.
  - intros p Hp Howner. split; [by apply list_elem_of_filter|].
    intros other Hother Hp'. apply list_elem_of_filter in Hp' as [Howner' _].
    assert (other ∈ filter (λ y, Tool.rowId y = Tool.rowId tool) tools) as Hf
      by (apply list_elem_of_filter; split; [congruence | done]).
    rewrite (filter_same_key Tool.rowId) in Hf by done.
    by apply list_elem_of_singleton in Hf.
  - intros Hnone. rewrite rows_of_tool_nil in Hargs by done.
    by apply Forall2_nil_inv_l in Hargs.
Qed.

(** C10.  A parameter row owned by no tool of [tools] is grouped under its
    owner's identifier, yet the rows behind the [arguments] of every
    compiled record do not contain it. *)
Theorem orphan_parameters_dropped
    tools tool_localizations parameter_localizations parameters compiled p :
  p ∈ parameters →
  (∀ tool, tool ∈ tools → Tool.rowId tool ≠ Param.toolId p) →
  build_payload tools tool_localizations parameter_localizations parameters
    = Ok compiled →
  (∃ params_by_tool records a,
     for_each (group_parameter parameter_localizations) parameters ∅
       = Ok params_by_tool
     ∧ params_by_tool !! Param.toolId p = Some records
     ∧ a ∈ records
     ∧ argument_record parameter_localizations p = Ok a)
  ∧ ∀ id record, compiled !! id = Some record →
      ∃ tool, tool ∈ tools ∧ Tool.id tool = id
        ∧ Forall2 (λ q a, argument_record parameter_localizations q = Ok a)
                  (rows_of_tool (Tool.rowId tool) parameters)
                  (Action.arguments record)
        ∧ p ∉ rows_of_tool (Tool.rowId tool) parameters.
Proof.
  intros Hp Horphan Hbuild. split.
  - unfold build_payload in Hbuild.
    apply bind_Ok in Hbuild as (params_by_tool & Hgroup & _).
    destruct (group_parameter_lookup _ _ _ _ (Param.toolId p) Hgroup)
      as (records & Hrecords & Hm).
    rewrite lookup_empty in Hm. cbn in Hm.
    destruct (Forall2_elem_of_l _ _ _ p Hrecords) as (a & Ha & Hpa).
    { by apply list_elem_of_filter. }
    exists params_by_tool, records, a. split; [done|].
    destruct (params_by_tool !! Param.toolId p) as [l|]; cbn in Hm.
    + by subst l.
    + subst records. by apply elem_of_nil in Ha.
  - intros id record Hid.
    destruct (build_payload_provenance _ _ _ _ _ _ _ Hbuild Hid)
      as (tool & pbt & Hin & Hkey & Hrecord & Hargs).
    exists tool. split; [done|]. split; [done|]. split; [done|].
    intros Hp'. apply list_elem_of_filter in Hp' as [Howner _].
    by apply (Horphan tool Hin).
Qed.

(** ** Ordering *)

Lemma N_compare_trans (x y z : N) c :
  (x ?= y) = c → (y ?= z) = c → (x ?= z) = c.
Proof.
  destruct c; intros H1 H2.
  - apply N.compare_eq_iff in H1, H2. subst. apply N.compare_refl.
  - rewrite N.compare_lt_iff in *. lia.
  - rewrite N.compare_gt_iff in *. lia.
Qed.

Lemma octets_inj x y : octets x = octets y → x = y.
Proof.
  revert y. induction x as [|a x IH]; intros [|b y]; try done.
  cbn. intros [= Hab Hxy]. f_equal; [|by apply IH].
  assert (Byte.of_N (Byte.to_N a) = Byte.of_N (Byte.to_N b)) as Heq by (by rewrite Hab).
  rewrite !Byte.of_to_N in Heq. by injection Heq.
Qed.

Lemma octets_compare_eq x y :
  list_compare N.compare (octets x) (octets y) = Eq ↔ x = y.
Proof.
  rewrite (list_compare_refl N.compare N.compare_eq_iff).
  split; [apply octets_inj | by intros ->].
Qed.

Lemma octets_compare_lt_trans x y z :
  list_compare N.compare x y = Lt → list_compare N.compare y z = Lt →
  list_compare N.compare x z = Lt.
Proof.
  apply (list_compare_trans N.compare N.compare_eq_iff).
  - apply N_compare_trans.
  - intros a b. apply N.compare_antisym.
Qed.

Lemma list_byte_of_string_inj s t :
  list_byte_of_string s = list_byte_of_string t → s = t.
Proof.
  intros Heq. rewrite <- (string_of_list_byte_of_string s),
    <- (string_of_list_byte_of_string t). by rewrite Heq.
Qed.

Lemma sql_compare_eq a b : sql_compare a b = Eq ↔ a = b.
Proof.
  destruct a as [|x|s|x], b as [|y|t|y]; cbn; try (split; discriminate); try done.
  - rewrite Z.compare_eq_iff. split; congruence.
  - rewrite octets_compare_eq. split; [|congruence].
    by intros ->%list_byte_of_string_inj.
  - rewrite octets_compare_eq. split; congruence.
Qed.

Lemma sql_compare_refl a : sql_compare a a = Eq.
Proof. by apply sql_compare_eq. Qed.

Lemma sql_compare_lt_trans a b c :
  sql_compare a b = Lt → sql_compare b c = Lt → sql_compare a c = Lt.
Proof.
  destruct a as [|x|s|x], b as [|y|t|y], c as [|z|u|z]; cbn; try done.
  - rewrite !Z.compare_lt_iff. lia.
  - apply octets_compare_lt_trans.
  - apply octets_compare_lt_trans.
Qed.

(** Sorting by a column and then by a transitive criterion is transitive. *)
Lemma then_by_column_trans {A} (f : A → sqlval) (c2 : A → A → comparison) :
  (∀ x y z, not_after (c2 x y) → not_after (c2 y z) → not_after (c2 x z)) →
  ∀ x y z,
    not_after (then_by (sql_compare (f x) (f y)) (c2 x y)) →
    not_after (then_by (sql_compare (f y) (f z)) (c2 y z)) →
    not_after (then_by (sql_compare (f x) (f z)) (c2 x z)).
Proof.
  intros Htrans x y z.
  destruct (sql_compare (f x) (f y)) eqn:Hxy; cbn; [| |by intros []];
    (destruct (sql_compare (f y) (f z)) eqn:Hyz; cbn; [| |by intros _ []]).
  - apply sql_compare_eq in Hxy, Hyz. rewrite Hxy, Hyz, sql_compare_refl.
    apply Htrans.
  - apply sql_compare_eq in Hxy. rewrite Hxy, Hyz. done.
  - apply sql_compare_eq in Hyz. rewrite <- Hyz, Hxy. done.
  - rewrite (sql_compare_lt_trans _ _ _ Hxy Hyz). done.
Qed.

Lemma sql_le_trans {A} (f : A → sqlval) x y z :
  not_after (sql_compare (f x) (f y)) → not_after (sql_compare (f y) (f z)) →
  not_after (sql_compare (f x) (f z)).
Proof.
  unfold not_after.
  destruct (sql_compare (f x) (f y)) eqn:Hxy; [| |by intros []];
    (destruct (sql_compare (f y) (f z)) eqn:Hyz; [| |by intros _ []]); intros _ _.
  - apply sql_compare_eq in Hxy, Hyz. by rewrite Hxy, Hyz, sql_compare_refl.
  - apply sql_compare_eq in Hxy. by rewrite Hxy, Hyz.
  - apply sql_compare_eq in Hyz. by rewrite <- Hyz, Hxy.
  - by rewrite (sql_compare_lt_trans _ _ _ Hxy Hyz).
Qed.

#[global] Instance parameter_le_trans : Transitive parameter_le.
Proof.
  intros x y z. unfold parameter_le, parameter_compare.
  apply (then_by_column_trans Param.toolId
           (λ p q, then_by (sql_compare (Param.sortOrder p) (Param.sortOrder q))
                           (sql_compare (Param.key p) (Param.key q)))).
  apply (then_by_column_trans Param.sortOrder
           (λ p q, sql_compare (Param.key p) (Param.key q))).
  apply (sql_le_trans Param.key).
Qed.

Lemma sql_compare_antisym a b : sql_compare b a = CompOpp (sql_compare a b).
Proof.
  destruct a as [|x|s|x], b as [|y|t|y]; cbn; try done.
  - apply Z.compare_antisym.
  - apply (list_compare_antisym N.compare N.compare_eq_iff).
    intros n m. apply N.compare_antisym.
  - apply (list_compare_antisym N.compare N.compare_eq_iff).
    intros n m. apply N.compare_antisym.
Qed.

#[global] Instance parameter_le_total : Total parameter_le.
Proof.
  intros p q. unfold parameter_le, parameter_compare, not_after.
  rewrite (sql_compare_antisym (Param.toolId p) (Param.toolId q)),
    (sql_compare_antisym (Param.sortOrder p) (Param.sortOrder q)),
    (sql_compare_antisym (Param.key p) (Param.key q)).
  destruct (sql_compare (Param.toolId p) (Param.toolId q)),
    (sql_compare (Param.sortOrder p) (Param.sortOrder q)),
    (sql_compare (Param.key p) (Param.key q)); cbn; auto.
Qed.


Lemma StronglySorted_filter {A} (R : relation A) (P : A → Prop)
    `{∀ x, Decision (P x)} (l : list A) :
  StronglySorted R l → StronglySorted R (filter P l).
Proof.
  induction 1 as [|x l Hl IH Hx]; [constructor|].
  rewrite filter_cons. case_decide; [|done].
  constructor; [done|]. apply Forall_forall. intros y Hy.
  apply list_elem_of_filter in Hy as [_ Hy].
  by apply (proj1 (Forall_forall _ _) Hx).
Qed.

(** Transport of sortedness along a pointwise correspondence. *)
Lemma StronglySorted_Forall2 {A B} (R : relation A) (S : relation B)
    (Q : A → B → Prop) (l : list A) (k : list B) :
  (∀ x y a b, x ∈ l → y ∈ l → Q x a → Q y b → R x y → S a b) →
  Forall2 Q l k → StronglySorted R l → StronglySorted S k.
Proof.
  intros HRS HQ. induction HQ as [|x a l k Hxa HQ IH]; intros Hs; [constructor|].
  apply StronglySorted_inv in Hs as [Hs Hx]. constructor.
  - apply IH; [|done]. intros ? ? ? ? ? ?. apply HRS; by right.
  - apply Forall_forall. intros b Hb.
    pose proof (proj1 (Forall_forall _ _) Hx) as Hx'.
    apply list_elem_of_lookup in Hb as [i Hi].
    destruct (Forall2_lookup_r _ _ _ _ _ HQ Hi) as (y & Hy & Hyb).
    assert (y ∈ l) as Hin by (apply list_elem_of_lookup; eauto).
    apply (HRS x y); [left | by right | done | done | by apply Hx'].
Qed.

(** C4.  When the parameter rows arrive ordered by (owning tool, sort
    order, key), the [arguments] of every compiled record are ordered by
    sort order with ties broken by key; they carry the keys and sort
    orders of the tool's rows in input order. *)
Theorem argument_ordering
    tools tool_localizations parameter_localizations parameters compiled id record :
  Sorted parameter_le parameters →
  build_payload tools tool_localizations parameter_localizations parameters
    = Ok compiled →
  compiled !! id = Some record →
  Sorted argument_le (Action.arguments record)
  ∧ ∃ tool, tool ∈ tools ∧ Tool.id tool = id
      ∧ Forall2 (λ p a, Argument.key a = Param.key p
                        ∧ Argument.sortOrder a = Param.sortOrder p)
                (rows_of_tool (Tool.rowId tool) parameters)
                (Action.arguments record).
Proof.
  intros Hsorted Hbuild Hid.
  destruct (build_payload_provenance _ _ _ _ _ _ _ Hbuild Hid)
    as (tool & pbt & Hin & Hkey & Hrecord & Hargs).
  assert (Forall2 (λ p a, Argument.key a = Param.key p
                          ∧ Argument.sortOrder a = Param.sortOrder p)
            (rows_of_tool (Tool.rowId tool) parameters)
            (Action.arguments record)) as Hfields.
  { eapply Forall2_impl; [exact Hargs|]. intros p a Ha.
    by apply argument_record_fields in Ha as (? & _ & _ & ? & _). }
  split; [|by exists tool].
  apply StronglySorted_Sorted.
  eapply (StronglySorted_Forall2 parameter_le argument_le); [|exact Hfields|].
  - intros x y a b Hx Hy [Hka Hsa] [Hkb Hsb].
    apply list_elem_of_filter in Hx as [Hx _], Hy as [Hy _].
    unfold parameter_le, parameter_compare, argument_le, argument_compare.
    by rewrite Hx, Hy, sql_compare_refl, Hka, Hsa, Hkb, Hsb.
  - apply StronglySorted_filter. by apply Sorted_StronglySorted; [apply _|].
Qed.

(** ** The catalog example *)

Lemma catalog_entry (id : sqlval) :
  match Catalog.compiled with
  | Ok c => match c !! id with Some _ => true | None => false end
  | Raise _ => false
  end = true →
  ∃ compiled record, Catalog.compiled = Ok compiled ∧ compiled !! id = Some record.
Proof.
  destruct Catalog.compiled as [compiled|e]; [|discriminate].
  destruct (compiled !! id) as [record|] eqn:Hid; [|discriminate].
  intros _. by exists compiled, record.
Qed.

Lemma catalog_one :
  ∃ compiled record,
    Catalog.compiled = Ok compiled
    ∧ compiled !! SText "com.example.one" = Some record.
Proof. apply catalog_entry. vm_compute. reflexivity. Qed.

Lemma catalog_two :
  ∃ compiled record,
    Catalog.compiled = Ok compiled
    ∧ compiled !! SText "com.example.two" = Some record.
Proof. apply catalog_entry. vm_compute. reflexivity. Qed.

Example catalog_names :
  match Catalog.compiled with
  | Ok c =>
      (λ r, (Action.name r, Argument.name <$> Action.arguments r))
        <$> c !! SText "com.example.one"
  | Raise _ => None
  end = Some (SText "Un", [SText "Premier"; SText "b"; SText "c"]).
Proof. vm_compute. reflexivity. Qed.

Example catalog_two_names :
  match Catalog.compiled with
  | Ok c =>
      (λ r, (Action.name r, Action.arguments r))
        <$> c !! SText "com.example.two"
  | Raise _ => None
  end = Some (SText "com.example.two", []).
Proof. vm_compute. reflexivity. Qed.

Lemma catalog_tool_one tool :
  tool ∈ Catalog.tools → Tool.id tool = SText "com.example.one" →
  tool = Sample.tool 1 "com.example.one" "action".
Proof.
  unfold Catalog.tools. rewrite !elem_of_cons.
  intros [->|[->|Hin]] Hid; [done | discriminate |].
  by apply elem_of_nil in Hin.
Qed.

Lemma catalog_tool_two tool :
  tool ∈ Catalog.tools → Tool.id tool = SText "com.example.two" →
  tool = Catalog.second_tool.
Proof.
  unfold Catalog.tools. rewrite !elem_of_cons.
  intros [->|[->|Hin]] Hid; [discriminate | done |].
  by apply elem_of_nil in Hin.
Qed.

Lemma catalog_rows_one :
  rows_of_tool (SInt 1) Catalog.parameters =
  [Sample.parameter 1 "a" 1; Sample.parameter 1 "b" 2; Sample.parameter 1 "c" 2].
Proof. vm_compute. reflexivity. Qed.

(** Three rows give three records. *)
Lemma Forall2_three {A B} (P : A → B → Prop) x1 x2 x3 k :
  Forall2 P [x1; x2; x3] k →
  ∃ y1 y2 y3, k = [y1; y2; y3] ∧ P x1 y1 ∧ P x2 y2 ∧ P x3 y3.
Proof.
  intros H.
  apply Forall2_cons_inv_l in H as (y1 & k1 & H1 & H & ->).
  apply Forall2_cons_inv_l in H as (y2 & k2 & H2 & H & ->).
  apply Forall2_cons_inv_l in H as (y3 & k3 & H3 & H & ->).
  apply Forall2_nil_inv_l in H as ->. by exists y1, y2, y3.
Qed.

(** On the catalog: tool 1 takes its French name; of its parameters, [a]
    takes its localized name, [b] (empty name) and [c] (no row) their
    keys. *)
Lemma default_name_substitution_witness :
  ∃ compiled record,
    Catalog.compiled = Ok compiled
    ∧ compiled !! SText "com.example.one" = Some record
    ∧ Action.name record = SText "Un"
    ∧ Argument.name <$> Action.arguments record
      = [SText "Premier"; SText "b"; SText "c"].
Proof.
  destruct catalog_one as (compiled & record & Hb & Hk).
  destruct (default_name_substitution _ _ _ _ _ _ _ Hb Hk)
    as (tool & Hin & Hid & Hyes & Hno & Hargs).
  apply catalog_tool_one in Hin as ->; [|done].
  exists compiled, record. split; [done|]. split; [done|]. split.
  - apply (Hyes (Sample.tool_name 1 "fr" "Un")); [vm_compute|]; reflexivity.
  - cbn [Tool.rowId Sample.tool] in Hargs. rewrite catalog_rows_one in Hargs.
    apply Forall2_three in Hargs
      as (a & b & c & -> & [Ha _] & [_ Hb'] & [_ Hc]).
    cbn [fmap list_fmap]. f_equal; [|f_equal; [|f_equal]].
    + apply (Ha (Sample.parameter_name 1 "a" "fr" "Premier"));
        [vm_compute|]; reflexivity.
    + apply Hb'. right. exists (Sample.parameter_name 1 "b" "fr" "").
      split; [vm_compute|]; reflexivity.
    + apply Hc. left. vm_compute. reflexivity.
Defined.

(** C2 as stated fails for a localization whose name is the empty string. *)
Lemma default_name_not_only_null :
  ¬ (∀ tools tool_localizations parameter_localizations parameters
       compiled id record,
       build_payload tools tool_localizations parameter_localizations parameters
         = Ok compiled →
       compiled !! id = Some record →
       ∃ tool, tool ∈ tools ∧ Tool.id tool = id
         ∧ (Action.name record = Tool.id tool ↔
            tool_localizations !! Tool.rowId tool = None
            ∨ ∃ l, tool_localizations !! Tool.rowId tool = Some l
                   ∧ ToolLocalization.name l = SNull)).
Proof.
  intros Hclaim.
  destruct catalog_two as (compiled & record & Hb & Hk).
  destruct (Hclaim _ _ _ _ _ _ _ Hb Hk) as (tool & Hin & Hid & Hiff).
  assert (tool = Sample.tool 2 "com.example.two" "action") as ->.
  { unfold Catalog.tools in Hin. rewrite !elem_of_cons in Hin.
    destruct Hin as [->|[->|Hin]]; [discriminate | done |].
    by apply elem_of_nil in Hin. }
  assert (Action.name record = SText "com.example.two") as Hname.
  { pose proof catalog_two_names as Hn. rewrite Hb, Hk in Hn.
    by injection Hn as -> _. }
  destruct (proj1 Hiff Hname) as [Hnone|(l & Hl & Hnull)].
  - vm_compute in Hnone. discriminate.
  - vm_compute in Hl. injection Hl as <-. discriminate.
Qed.

(** On the catalog: tool 2, whose localized name is empty, is named by its
    identifier, and parameter [b] of tool 1 by its key. *)
Lemma empty_name_substitution_witness :
  ∃ compiled one two,
    Catalog.compiled = Ok compiled
    ∧ compiled !! SText "com.example.one" = Some one
    ∧ compiled !! SText "com.example.two" = Some two
    ∧ Action.name two = SText "com.example.two"
    ∧ ∃ a b c, Action.arguments one = [a; b; c] ∧ Argument.name b = SText "b".
Proof.
  destruct catalog_one as (compiled & one & Hb & Hk1).
  destruct catalog_two as (compiled' & two & Hb' & Hk2).
  assert (compiled' = compiled) as -> by congruence.
  destruct (empty_name_substitution _ _ _ _ _ _ _ Hb Hk1)
    as (tool1 & Hin1 & Hid1 & _ & Hargs).
  destruct (empty_name_substitution _ _ _ _ _ _ _ Hb Hk2)
    as (tool2 & Hin2 & Hid2 & Hname & _).
  apply catalog_tool_one in Hin1 as ->; [|done].
  apply catalog_tool_two in Hin2 as ->; [|done].
  exists compiled, one, two. do 3 (split; [done|]). split.
  - apply (Hname (Sample.tool_name 2 "en" "")); [vm_compute|]; reflexivity.
  - cbn [Tool.rowId Sample.tool] in Hargs. rewrite catalog_rows_one in Hargs.
    apply Forall2_three in Hargs as (a & b & c & Heq & _ & Hb'' & _).
    exists a, b, c. split; [done|].
    apply (Hb'' (Sample.parameter_name 1 "b" "fr" "")); [vm_compute|]; reflexivity.
Defined.

(** On the catalog no parameter has a type: the three arguments of tool 1
    carry the all-null type object. *)
Lemma type_absence_witness :
  ∃ compiled record a b c,
    Catalog.compiled = Ok compiled
    ∧ compiled !! SText "com.example.one" = Some record
    ∧ Action.arguments record = [a; b; c]
    ∧ Forall (λ x, Argument.type x =
                {| TypeRecord.rowId := SNull;
                   TypeRecord.kind := SNull;
                   TypeRecord.runtimeFlags := SNull;
                   TypeRecord.runtimeRequirements := None;
                   TypeRecord.encodedId := None |}) [a; b; c].
Proof.
  destruct catalog_one as (compiled & record & Hb & Hk).
  destruct (type_absence _ _ _ _ _ _ _ Hb Hk) as (tool & Hin & Hid & Hargs).
  apply catalog_tool_one in Hin as ->; [|done].
  cbn [Tool.rowId Sample.tool] in Hargs. rewrite catalog_rows_one in Hargs.
  apply Forall2_three in Hargs as (a & b & c & Heq & Ha & Hb' & Hc).
  exists compiled, record, a, b, c. do 3 (split; [done|]).
  repeat constructor; [apply Ha | apply Hb' | apply Hc]; by repeat split.
Defined.

Lemma catalog_parameters_sorted : Sorted parameter_le Catalog.parameters.
Proof. repeat constructor; vm_compute; discriminate. Qed.

Lemma argument_ordering_witness :
  ∃ compiled record,
    Catalog.compiled = Ok compiled
    ∧ compiled !! SText "com.example.one" = Some record
    ∧ Sorted argument_le (Action.arguments record)
    ∧ ∃ tool, tool ∈ Catalog.tools ∧ Tool.id tool = SText "com.example.one"
        ∧ Forall2 (λ p a, Argument.key a = Param.key p
                          ∧ Argument.sortOrder a = Param.sortOrder p)
                  (rows_of_tool (Tool.rowId tool) Catalog.parameters)
                  (Action.arguments record).
Proof.
  destruct catalog_one as (compiled & record & Hb & Hk).
  exists compiled, record. split; [done|]. split; [done|].
  exact (argument_ordering _ _ _ _ _ _ _ catalog_parameters_sorted Hb Hk).
Defined.

Lemma catalog_compiled_ok : ∃ compiled, Catalog.compiled = Ok compiled.
Proof.
  assert (match Catalog.compiled with Ok _ => true | Raise _ => false end = true)
    as Hok by (vm_compute; reflexivity).
  destruct Catalog.compiled as [compiled|e]; [by exists compiled | discriminate].
Qed.

Lemma catalog_row_ids_distinct : NoDup (Tool.rowId <$> Catalog.tools).
Proof. apply (bool_decide_unpack _). vm_compute. exact I. Qed.

Lemma catalog_ids_distinct : NoDup (Tool.id <$> Catalog.tools).
Proof. apply (bool_decide_unpack _). vm_compute. exact I. Qed.

(** On the catalog: tool 2 owns no parameter row and has its record, with
    the empty list as arguments. *)
Lemma grouping_completeness_witness :
  ∃ compiled record,
    Catalog.compiled = Ok compiled
    ∧ compiled !! SText "com.example.two" = Some record
    ∧ Action.rowId record = SInt 2
    ∧ Action.arguments record = [].
Proof.
  destruct catalog_compiled_ok as [compiled Hb].
  assert (Catalog.second_tool ∈ Catalog.tools) as Hin by (right; left).
  destruct (grouping_completeness _ _ _ _ _ Catalog.second_tool
              catalog_row_ids_distinct catalog_ids_distinct Hb Hin)
    as (record & Hid & HrowId & _ & _ & Hnone).
  exists compiled, record. do 3 (split; [done|]).
  apply Hnone. intros p Hp. unfold Catalog.parameters in Hp.
  rewrite !elem_of_cons in Hp.
  destruct Hp as [->|[->|[->|[->|Hp]]]]; [discriminate.. |].
  by apply elem_of_nil in Hp.
Defined.

Lemma orphan_parameters_dropped_witness :
  ∃ compiled,
    Catalog.compiled = Ok compiled
    ∧ (∃ params_by_tool records a,
         for_each (group_parameter Catalog.parameter_localizations)
           Catalog.parameters ∅ = Ok params_by_tool
         ∧ params_by_tool !! Param.toolId Catalog.orphan = Some records
         ∧ a ∈ records
         ∧ argument_record Catalog.parameter_localizations Catalog.orphan = Ok a)
    ∧ ∀ id record, compiled !! id = Some record →
        ∃ tool, tool ∈ Catalog.tools ∧ Tool.id tool = id
          ∧ Forall2 (λ q a, argument_record Catalog.parameter_localizations q = Ok a)
                    (rows_of_tool (Tool.rowId tool) Catalog.parameters)
                    (Action.arguments record)
          ∧ Catalog.orphan ∉ rows_of_tool (Tool.rowId tool) Catalog.parameters.
Proof.
  destruct catalog_compiled_ok as [compiled Hb].
  exists compiled. split; [done|].
  apply (orphan_parameters_dropped Catalog.tools Catalog.tool_localizations
           Catalog.parameter_localizations Catalog.parameters compiled Catalog.orphan).
  - do 3 right. left.
  - intros tool Hin. unfold Catalog.tools in Hin. rewrite !elem_of_cons in Hin.
    destruct Hin as [->|[->|Hin]]; [discriminate | discriminate |].
    by apply elem_of_nil in Hin.
  - exact Hb.
Defined.

(** The builder is total on the catalog. *)
Lemma build_payload_total_witness :
  ∃ compiled,
    build_payload Catalog.tools Catalog.tool_localizations
      Catalog.parameter_localizations Catalog.parameters = Ok compiled
    ∧ ∀ tool, tool ∈ Catalog.tools → is_Some (compiled !! Tool.id tool).
Proof.
  apply build_payload_total.
  - repeat constructor.
  - repeat constructor.
Defined.

(** ** main *)

Example fetch_tool_rows_shuffled :
  Tool.rowId <$> fetch_tool_rows Sample.shuffled = [SInt 1; SInt 2].
Proof. vm_compute. reflexivity. Qed.

Example fetch_parameters_shuffled :
  (λ p, (Param.toolId p, Param.sortOrder p, Param.key p, Param.typeKind p))
    <$> fetch_parameters Sample.shuffled
  = [(SInt 1, SInt 1, SText "c", SNull);
     (SInt 1, SInt 3, SText "a", SNull);
     (SInt 1, SInt 3, SText "z", SInt 2);
     (SInt 2, SInt 1, SText "b", SNull)].
Proof. vm_compute. reflexivity. Qed.

Example main_writes_output :
  run (main id (λ _, "out"%string) (λ _, Ok "{}"%string) Sample.world Sample.args)
  = ([Connect "raw.sqlite"; Close; Mkdir "out";
      WriteText "out/compiled.json" "{}"], Ok tt).
Proof. vm_compute. reflexivity. Qed.


(** C8.  When the store opens and holds no action tool, [main] ends with
    [SystemExit] and its message, hence a non-zero exit status, after
    connecting and closing only: no directory is made and no file
    written. *)
Theorem empty_result_is_fatal
    (path_str path_parent : string → string)
    (json_dumps : Payload → result string)
    (w : World) (args : Args) (conn : Database) :
  path_exists w (db args) = true →
  store w (db args) = Some conn →
  fetch_tool_rows conn = [] →
  let outcome := run (main path_str path_parent json_dumps w args) in
  outcome = ([Connect (db args); Close],
             Raise (SystemExit "No action tools found in the database."))
  ∧ exit_status (snd outcome) ≠ 0%Z
  ∧ Forall (λ ev, writes_output ev = false) (fst outcome).
Proof.
  intros Hexists Hstore Hempty.
  assert (run (main path_str path_parent json_dumps w args)
          = ([Connect (db args); Close],
             Raise (SystemExit "No action tools found in the database.")))
    as Hrun.
  { unfold run, main. rewrite Hexists. cbn [negb].
    unfold mbind, io_bind, perform, try_finally, lift, fetch_all.
    rewrite Hstore, Hempty. reflexivity. }
  cbn zeta. rewrite Hrun. split; [done|]. split; [done|].
  by repeat constructor.
Qed.

Lemma empty_result_is_fatal_witness :
  run (main id id (λ _, Ok ""%string) Deserted.world Deserted.args)
  = ([Connect "raw.sqlite"; Close],
     Raise (SystemExit "No action tools found in the database."))
  ∧ exit_status
      (snd (run (main id id (λ _, Ok ""%string) Deserted.world Deserted.args)))
    ≠ 0%Z
  ∧ Forall (λ ev, writes_output ev = false)
      (fst (run (main id id (λ _, Ok ""%string) Deserted.world Deserted.args))).
Proof.
  apply (empty_result_is_fatal id id (λ _, Ok ""%string)
           Deserted.world Deserted.args Deserted.database).
  - reflexivity.
  - reflexivity.
  - vm_compute. reflexivity.
Defined.

(** * Further properties *)


Lemma encode_blob_encodable v :
  encodable v = true ↔ ∃ text, encode_blob (Val v) = Ok text.
Proof.
  destruct v as [|n|s|[|b0 b]]; cbn.
  - split; [by exists None | done].
  - destruct (Z.eqb_spec n 0); cbn; split; eauto; try done. by intros [? ?].
  - destruct (String.eqb_spec s ""); cbn; split; eauto; try done. by intros [? ?].
  - split; [by exists (Some ""%string) | done].
  - change (encodable (SBlob (b0 :: b)) = true ↔
            ∃ text, encode_blob (Val (SBlob (b0 :: b))) = Ok text).
    rewrite encode_blob_bytes. split; eauto.
Qed.

Lemma b64encode_nonempty b0 b :
  string_of_list_byte (Base64.b64encode (b0 :: b)) ≠ ""%string.
Proof.
  intros Hempty.
  pose proof (b64decode_b64encode (b0 :: b)) as Hdec.
  rewrite Hempty in Hdec. discriminate.
Qed.

Lemma encode_blob_null : encode_blob (Val SNull) = Ok None.
Proof. reflexivity. Qed.

Lemma encode_blob_empty : encode_blob (Val (SBlob [])) = Ok (Some ""%string).
Proof. reflexivity. Qed.

(** X2.  On NULL and byte sequences [encode_blob] is injective: NULL, the
    empty sequence and distinct byte sequences have distinct images. *)
Theorem encode_blob_injective (v1 v2 : sqlval) :
  blob_or_null v1 = true → blob_or_null v2 = true →
  encode_blob (Val v1) = encode_blob (Val v2) → v1 = v2.
Proof.
  destruct v1 as [| | |[|a1 b1]], v2 as [| | |[|a2 b2]]; try done; intros _ _;
    rewrite ?encode_blob_bytes, ?encode_blob_null, ?encode_blob_empty;
    try discriminate.
  - intros Heq. exfalso. apply (b64encode_nonempty a2 b2). congruence.
  - intros Heq. exfalso. apply (b64encode_nonempty a1 b1). congruence.
  - intros Heq.
    assert (string_of_list_byte (Base64.b64encode (a1 :: b1))
            = string_of_list_byte (Base64.b64encode (a2 :: b2))) as Htext
      by congruence.
    pose proof (b64decode_b64encode (a1 :: b1)) as H1.
    pose proof (b64decode_b64encode (a2 :: b2)) as H2.
    rewrite Htext in H1. congruence.
Qed.


Lemma length_string_of_list_byte l :
  String.length (string_of_list_byte l) = length l.
Proof. induction l as [|b l IH]; [done|]. cbn. by rewrite <- IH. Qed.

Lemma length_b2a_base64 bin :
  length (Base64.b2a_base64 bin) = (4 * ((length bin + 2) / 3))%nat.
Proof.
  induction bin as [|b0|b0 b1|b0 b1 b2 rest IH] using list_ind3; try reflexivity.
  cbn [Base64.b2a_base64 length]. rewrite IH.
  replace (S (S (S (length rest))) + 2)%nat with ((length rest + 2) + 1 * 3)%nat by lia.
  rewrite Nat.div_add by lia. lia.
Qed.

Lemma b2a_in_alphabet n :
  Base64.b2a n ∈ Base64.table_b2a_base64 ∨ Base64.b2a n = Base64.BASE64_PAD.
Proof.
  unfold Base64.b2a.
  destruct (nth_in_or_default (N.to_nat n) Base64.table_b2a_base64 Base64.BASE64_PAD)
    as [Hin | ->]; [left; by apply list_elem_of_In | by right].
Qed.

Lemma b2a_base64_alphabet bin :
  Forall (λ c, c ∈ Base64.table_b2a_base64 ∨ c = Base64.BASE64_PAD)
         (Base64.b2a_base64 bin).
Proof.
  induction bin as [|b0|b0 b1|b0 b1 b2 rest IH] using list_ind3;
    cbn [Base64.b2a_base64];
    repeat (apply Forall_cons; split; [first [apply b2a_in_alphabet | by right]|]);
    first [apply Forall_nil; done | exact IH].
Qed.

(** X3.  The text of a byte sequence has four characters for every three
    bytes, rounded up, all from the base64 alphabet or the pad character. *)
Theorem encode_blob_text_shape (b : list byte) :
  ∃ s, encode_blob (Val (SBlob b)) = Ok (Some s)
    ∧ String.length s = (4 * ((length b + 2) / 3))%nat
    ∧ Forall (λ c, c ∈ Base64.table_b2a_base64 ∨ c = Base64.BASE64_PAD)
             (list_byte_of_string s).
Proof.
  destruct b as [|b0 b].
  - exists ""%string. split; [done|]. split; [done|]. apply Forall_nil. done.
  - eexists. split; [apply encode_blob_bytes|].
    rewrite length_string_of_list_byte, list_byte_of_string_of_list_byte.
    split; [apply length_b2a_base64 | apply b2a_base64_alphabet].
Qed.

Lemma sql_eq_true a b : sql_eq a b = true ↔ a = b ∧ a ≠ SNull.
Proof.
  destruct a, b; cbn; rewrite ?bool_decide_eq_true; split;
    try discriminate; try (intros [? ?]; congruence); try (intros [= <-]; done);
    intros ->; done.
Qed.

Lemma sql_eq_action v : sql_eq v (SText "action") = true ↔ v = SText "action".
Proof. rewrite sql_eq_true. split; [by intros [? ?] | by intros ->]. Qed.



#[global] Instance row_id_le_total : Total row_id_le.
Proof.
  intros t u. unfold row_id_le, not_after.
  rewrite (sql_compare_antisym (Tool.rowId t) (Tool.rowId u)).
  destruct (sql_compare (Tool.rowId t) (Tool.rowId u)); cbn; auto.
Qed.

Lemma fetch_tool_rows_perm conn :
  fetch_tool_rows conn ≡ₚ filter is_action (Tools conn).
Proof.
  unfold fetch_tool_rows. rewrite merge_sort_Permutation.
  erewrite list_filter_iff; [reflexivity|]. intros t. apply sql_eq_action.
Qed.

Lemma elem_of_fetch_tool_rows conn tool :
  tool ∈ fetch_tool_rows conn ↔ tool ∈ Tools conn ∧ is_action tool.
Proof. rewrite fetch_tool_rows_perm, list_elem_of_filter. tauto. Qed.


Section ResolveExact.
Context {K R : Type} `{Countable K}.
Variable key_of : R → K.

Lemma resolve_lookup (primary : list R) (fallback : option (list R)) (k : K) :
  resolve key_of primary fallback !! k =
  match last (filter (λ r, key_of r = k) primary) with
  | Some r => Some r
  | None =>
      match fallback with
      | Some rows => head (filter (λ r, key_of r = k) rows)
      | None => None
      end
  end.
Proof.
  unfold resolve. destruct fallback as [rows|].
  - rewrite setdefault_all_lookup, assign_all_lookup, lookup_empty.
    by destruct (last _).
  - by rewrite assign_all_lookup, lookup_empty.
Qed.


Lemma resolve_primary_subseteq primary fallback :
  resolve key_of primary None ⊆ resolve key_of primary fallback.
Proof.
  apply map_subseteq_spec. intros k r. rewrite !resolve_lookup.
  by destruct (last _).
Qed.

Lemma resolve_unique_primary primary fallback r :
  NoDup (key_of <$> primary) → r ∈ primary →
  resolve key_of primary fallback !! key_of r = Some r.
Proof.
  intros Hnd Hin. by rewrite resolve_lookup, (filter_same_key key_of).
Qed.

Lemma resolve_unique_fallback primary rows r :
  NoDup (key_of <$> rows) → r ∈ rows →
  ¬ has_row key_of primary (key_of r) →
  resolve key_of primary (Some rows) !! key_of r = Some r.
Proof.
  intros Hnd Hin Hno.
  by rewrite resolve_lookup, filter_no_row, (filter_same_key key_of).
Qed.
End ResolveExact.

(** X5.  Collisions: a key of several rows takes the last row of the primary
    locale; with no primary row and a fallback pass, the first row of the
    fallback locale; otherwise it is absent. *)
Theorem localization_collisions (conn : Database) (L : string) (F : option string) :
  (∀ k : sqlval,
     fetch_tool_localizations conn L F !! k =
     match last (filter (λ r, ToolLocalization.toolId r = k)
                        (query_tool_localizations conn L)) with
     | Some r => Some r
     | None =>
         match use_fallback L F with
         | Some f => head (filter (λ r, ToolLocalization.toolId r = k)
                                  (query_tool_localizations conn f))
         | None => None
         end
     end)
  ∧ (∀ k : sqlval * sqlval,
       fetch_parameter_localizations conn L F !! k =
       match last (filter (λ r, parameter_localization_key r = k)
                          (query_parameter_localizations conn L)) with
       | Some r => Some r
       | None =>
           match use_fallback L F with
           | Some f => head (filter (λ r, parameter_localization_key r = k)
                                    (query_parameter_localizations conn f))
           | None => None
           end
       end).
Proof.
  split; intros k.
  - rewrite fetch_tool_localizations_resolve, resolve_lookup.
    by destruct (use_fallback L F).
  - rewrite fetch_parameter_localizations_resolve, resolve_lookup.
    by destruct (use_fallback L F).
Qed.




Lemma use_fallback_skipped L :
  use_fallback L (Some ""%string) = None ∧ use_fallback L (Some L) = None.
Proof.
  unfold use_fallback. split.
  - reflexivity.
  - rewrite String.eqb_refl. cbn [negb]. by rewrite andb_false_r.
Qed.

(** X7.  The fallback pass only adds keys: the map resolved without fallback
    is included in the map resolved with any fallback; a fallback equal to
    the primary locale or empty changes nothing. *)
Theorem fallback_only_adds (conn : Database) (L : string) (F : option string) :
  fetch_tool_localizations conn L None ⊆ fetch_tool_localizations conn L F
  ∧ fetch_parameter_localizations conn L None
      ⊆ fetch_parameter_localizations conn L F
  ∧ fetch_tool_localizations conn L (Some L) = fetch_tool_localizations conn L None
  ∧ fetch_tool_localizations conn L (Some ""%string)
      = fetch_tool_localizations conn L None
  ∧ fetch_parameter_localizations conn L (Some L)
      = fetch_parameter_localizations conn L None
  ∧ fetch_parameter_localizations conn L (Some ""%string)
      = fetch_parameter_localizations conn L None.
Proof.
  destruct (use_fallback_skipped L) as [Hempty Hsame].
  rewrite !fetch_tool_localizations_resolve, !fetch_parameter_localizations_resolve.
  rewrite Hempty, Hsame. cbn [use_fallback fmap option_fmap option_map].
  split; [apply resolve_primary_subseteq|].
  split; [apply resolve_primary_subseteq|]. done.
Qed.

(** X8.  When a locale has at most one row per key, every primary-locale row
    is the value of its key, and so is every row of an active fallback
    locale whose key has no primary-locale row. *)
Theorem unique_rows_resolve (conn : Database) (L : string) (F : option string) :
  (∀ r, NoDup (ToolLocalization.toolId <$> query_tool_localizations conn L) →
        r ∈ query_tool_localizations conn L →
        fetch_tool_localizations conn L F !! ToolLocalization.toolId r = Some r)
  ∧ (∀ r, NoDup (parameter_localization_key
                   <$> query_parameter_localizations conn L) →
          r ∈ query_parameter_localizations conn L →
          fetch_parameter_localizations conn L F !! parameter_localization_key r
            = Some r)
  ∧ (∀ f r, F = Some f → f ≠ ""%string → f ≠ L →
            NoDup (ToolLocalization.toolId <$> query_tool_localizations conn f) →
            r ∈ query_tool_localizations conn f →
            ¬ has_row ToolLocalization.toolId (query_tool_localizations conn L)
                (ToolLocalization.toolId r) →
            fetch_tool_localizations conn L F !! ToolLocalization.toolId r
              = Some r)
  ∧ (∀ f r, F = Some f → f ≠ ""%string → f ≠ L →
            NoDup (parameter_localization_key
                     <$> query_parameter_localizations conn f) →
            r ∈ query_parameter_localizations conn f →
            ¬ has_row parameter_localization_key
                (query_parameter_localizations conn L)
                (parameter_localization_key r) →
            fetch_parameter_localizations conn L F
              !! parameter_localization_key r = Some r).
Proof.
  rewrite fetch_tool_localizations_resolve, fetch_parameter_localizations_resolve.
  split; [intros; by apply resolve_unique_primary|].
  split; [intros; by apply resolve_unique_primary|].
  split.
  - intros f r HF Hne HL Hnd Hin Hno.
    assert (use_fallback L F = Some f) as -> by (by apply use_fallback_Some).
    by apply resolve_unique_fallback.
  - intros f r HF Hne HL Hnd Hin Hno.
    assert (use_fallback L F = Some f) as -> by (by apply use_fallback_Some).
    by apply resolve_unique_fallback.
Qed.

Lemma elem_of_join_type types row p :
  p ∈ join_type types row ↔
  same_parameter p row
  ∧ ((untyped p ∧ ∀ ty, ty ∈ types →
                        ¬ (TypeTable.rowId ty = ParameterTable.typeId row
                           ∧ TypeTable.rowId ty ≠ SNull))
     ∨ ∃ ty, ty ∈ types ∧ TypeTable.rowId ty ≠ SNull ∧ typed_by p ty).
Proof.
  unfold join_type.
  destruct (filter _ types) as [|ty0 tys] eqn:Hf.
  - rewrite list_elem_of_singleton. split.
    + intros ->. split; [by repeat split|]. left. split; [by repeat split|].
      intros ty Hty [Hid Hnull].
      assert (ty ∈ filter (λ ty, sql_eq (TypeTable.rowId ty)
                (ParameterTable.typeId row) = true) types) as Hin
        by (apply list_elem_of_filter; split; [by apply sql_eq_true | done]).
      rewrite Hf in Hin. by apply elem_of_nil in Hin.
    + intros [(H1 & H2 & H3 & H4 & H5 & H6 & H7) [[(U1 & U2 & U3 & U4) _]|(ty & Hty & Hnull & Hid & _)]].
      * destruct p. cbn in *. by subst.
      * assert (ty ∈ filter (λ ty, sql_eq (TypeTable.rowId ty)
                  (ParameterTable.typeId row) = true) types) as Hin.
        { apply list_elem_of_filter. split; [|done]. apply sql_eq_true.
          split; [congruence | done]. }
        rewrite Hf in Hin. by apply elem_of_nil in Hin.
  - rewrite <- Hf. rewrite list_elem_of_fmap. split.
    + intros (ty & -> & Hty). apply list_elem_of_filter in Hty as [Heq Hty].
      apply sql_eq_true in Heq as [Heq Hnull].
      split; [by repeat split|]. right. exists ty. by repeat split.
    + intros [(H1 & H2 & H3 & H4 & H5 & H6 & H7) [[_ Hnone]|(ty & Hty & Hnull & Hid & T1 & T2 & T3 & T4)]].
      * exfalso. assert (ty0 ∈ filter (λ ty, sql_eq (TypeTable.rowId ty)
                  (ParameterTable.typeId row) = true) types) as Hin
          by (rewrite Hf; left).
        apply list_elem_of_filter in Hin as [Heq Hin].
        apply sql_eq_true in Heq as [Heq Hnull]. by apply (Hnone ty0 Hin).
      * exists ty. split.
        -- destruct p. cbn in *. by subst.
        -- apply list_elem_of_filter. split; [|done]. apply sql_eq_true.
           split; [congruence | done].
Qed.

Lemma elem_of_fetch_parameters conn p :
  p ∈ fetch_parameters conn ↔
  ∃ row tool,
    row ∈ ParameterRows conn
    ∧ tool ∈ Tools conn ∧ is_action tool
    ∧ Tool.rowId tool = ParameterTable.toolId row
    ∧ ParameterTable.toolId row ≠ SNull
    ∧ p ∈ join_type (Types conn) row.
Proof.
  unfold fetch_parameters. rewrite merge_sort_Permutation.
  rewrite list_elem_of_bind. split.
  - intros (row & Hp & Hrow). apply list_elem_of_bind in Hp as (t & Hp & Ht).
    apply list_elem_of_filter in Ht as [Hcond Ht].
    apply andb_true_iff in Hcond as [Hid Ha].
    apply sql_eq_true in Hid as [Hid Hnull]. apply sql_eq_action in Ha.
    exists row, t. repeat split; try done. congruence.
  - intros (row & t & Hrow & Ht & Ha & Hid & Hnull & Hp).
    exists row. split; [|done]. apply list_elem_of_bind. exists t. split; [done|].
    apply list_elem_of_filter. split; [|done].
    apply andb_true_iff. split; [|by apply sql_eq_action].
    apply sql_eq_true. split; [done | congruence].
Qed.



(** X11.  No parameter of an action tool is lost by the joins: it comes back
    whether or not its type reference resolves. *)
Theorem fetch_parameters_complete (conn : Database)
    (row : ParameterTable.row) (tool : Tool.row) :
  row ∈ ParameterRows conn →
  tool ∈ Tools conn → is_action tool →
  Tool.rowId tool = ParameterTable.toolId row →
  ParameterTable.toolId row ≠ SNull →
  ∃ p, p ∈ fetch_parameters conn ∧ same_parameter p row.
Proof.
  intros Hrow Ht Ha Hid Hnull.
  assert (∃ p, p ∈ join_type (Types conn) row) as [p Hp].
  { unfold join_type. destruct (filter _ (Types conn)) as [|ty tys].
    - eexists. left.
    - eexists. left. }
  exists p. split.
  - apply elem_of_fetch_parameters. by exists row, tool.
  - by apply elem_of_join_type in Hp as [? _].
Qed.

Lemma encode_blob_raise_inv v e :
  encode_blob (Val v) = Raise e → e = TypeError ∧ encodable v = false.
Proof.
  destruct v as [|n|s|[|b0 b]]; try discriminate.
  - cbn. destruct (Z.eqb n 0); cbn; [discriminate|]. by intros [= <-].
  - cbn. destruct (String.eqb s ""); cbn; [discriminate|]. by intros [= <-].
  - by rewrite encode_blob_bytes.
Qed.

Lemma encode_blob_image v out :
  encode_blob (Val v) = Ok out → blob_image v out.
Proof.
  destruct v as [|n|s|[|b0 b]].
  - by intros [= <-].
  - cbn. destruct (Z.eqb n 0); cbn; [by intros [= <-] | discriminate].
  - cbn. destruct (String.eqb s ""); cbn; [by intros [= <-] | discriminate].
  - intros [= <-]. by exists ""%string.
  - rewrite encode_blob_bytes. intros Heq.
    exists (string_of_list_byte (Base64.b64encode (b0 :: b))).
    split; [congruence | apply b64decode_b64encode].
Qed.

Lemma bind_Raise {A B} (r : result A) (k : A → result B) (e : exn) :
  (a ← r; k a) = Raise e ↔ r = Raise e ∨ ∃ a, r = Ok a ∧ k a = Raise e.
Proof.
  destruct r as [a|e'].
  - change ((a ← Ok a; k a) = Raise e) with (k a = Raise e). split.
    + intros Hk. right. by exists a.
    + intros [Hr|(a' & Hr & Hk)]; [discriminate|]. by injection Hr as <-.
  - change ((a ← Raise e'; k a) = Raise e) with (@Raise B e' = Raise e). split.
    + intros [= <-]. by left.
    + intros [Hr|(a' & Hr & _)]; [|discriminate]. by injection Hr as <-.
Qed.

Lemma for_each_Ok_inv {A S} (body : S → A → result S) xs s s' :
  for_each body xs s = Ok s' →
  Forall (λ x, ∃ s1 s2, body s1 x = Ok s2) xs.
Proof.
  revert s. induction xs as [|x xs IH]; intros s Hrun; [constructor|].
  apply for_each_cons in Hrun as (s1 & Hstep & Hrun).
  constructor; [eauto | by eapply IH].
Qed.

Lemma for_each_Raise_inv {A S} (body : S → A → result S) xs s e :
  for_each body xs s = Raise e →
  ∃ x s1, x ∈ xs ∧ body s1 x = Raise e.
Proof.
  revert s. induction xs as [|x xs IH]; intros s Hrun; [discriminate|].
  cbn [for_each] in Hrun. destruct (body s x) as [s1|e1] eqn:Hstep; cbn in Hrun.
  - destruct (IH _ Hrun) as (y & s2 & Hy & Hbody). exists y, s2. split; [by right | done].
  - injection Hrun as <-. exists x, s. split; [left | done].
Qed.

Section Encodable.
Variable tool_localizations : gmap sqlval ToolLocalization.row.
Variable parameter_localizations : gmap (sqlval * sqlval) ParameterLocalization.row.

Lemma argument_record_Ok_iff param :
  (∃ a, argument_record parameter_localizations param = Ok a)
  ↔ parameter_encodable param.
Proof.
  unfold parameter_encodable. rewrite !andb_true_iff, !encode_blob_encodable.
  unfold argument_record. split.
  - intros [a Ha].
    apply bind_Ok in Ha as (t1 & H1 & Ha). apply bind_Ok in Ha as (t2 & H2 & Ha).
    apply bind_Ok in Ha as (t3 & H3 & Ha). apply bind_Ok in Ha as (t4 & H4 & _).
    eauto 10.
  - intros [[[[t1 H1] [t2 H2]] [t3 H3]] [t4 H4]].
    rewrite H1, H2, H3, H4. cbn. eauto.
Qed.

Lemma argument_record_Raise param e :
  argument_record parameter_localizations param = Raise e → e = TypeError.
Proof.
  unfold argument_record. intros Ha.
  repeat (apply bind_Raise in Ha as [Ha|(? & _ & Ha)];
          [by apply encode_blob_raise_inv in Ha as [? _]|]).
  discriminate.
Qed.

Lemma tool_record_Ok_iff params_by_tool tool :
  (∃ record, tool_record tool_localizations params_by_tool tool = Ok record)
  ↔ tool_encodable tool.
Proof.
  unfold tool_encodable. rewrite !andb_true_iff, !encode_blob_encodable.
  unfold tool_record. split.
  - intros [a Ha].
    apply bind_Ok in Ha as (t1 & H1 & Ha). apply bind_Ok in Ha as (t2 & H2 & Ha).
    apply bind_Ok in Ha as (t3 & H3 & _). eauto 10.
  - intros [[[t1 H1] [t2 H2]] [t3 H3]].
    rewrite H1, H2, H3. cbn. eauto.
Qed.

Lemma tool_record_Raise params_by_tool tool e :
  tool_record tool_localizations params_by_tool tool = Raise e → e = TypeError.
Proof.
  unfold tool_record. intros Ha.
  repeat (apply bind_Raise in Ha as [Ha|(? & _ & Ha)];
          [by apply encode_blob_raise_inv in Ha as [? _]|]).
  discriminate.
Qed.

Lemma group_parameter_Ok_iff m param :
  (∃ m', group_parameter parameter_localizations m param = Ok m')
  ↔ parameter_encodable param.
Proof.
  rewrite <- argument_record_Ok_iff. unfold group_parameter. split.
  - intros [m' Hm]. apply bind_Ok in Hm as (a & Ha & _). eauto.
  - intros [a Ha]. rewrite Ha. cbn. eauto.
Qed.

Lemma compile_tool_Ok_iff params_by_tool c tool :
  (∃ c', compile_tool tool_localizations params_by_tool c tool = Ok c')
  ↔ tool_encodable tool.
Proof.
  rewrite <- (tool_record_Ok_iff params_by_tool). unfold compile_tool. split.
  - intros [c' Hc]. apply bind_Ok in Hc as (a & Ha & _). eauto.
  - intros [a Ha]. rewrite Ha. cbn. eauto.
Qed.
End Encodable.

Lemma build_payload_Raise
    tools tool_localizations parameter_localizations parameters e :
  build_payload tools tool_localizations parameter_localizations parameters
    = Raise e → e = TypeError.
Proof.
  intros Hbuild. unfold build_payload in Hbuild.
  destruct (for_each (group_parameter parameter_localizations) parameters ∅)
    as [pbt|e'] eqn:Hgroup; cbn in Hbuild.
  - apply for_each_Raise_inv in Hbuild as (t & c & _ & Hc).
    unfold compile_tool in Hc.
    apply bind_Raise in Hc as [Hc|(? & _ & [=])]. by eapply tool_record_Raise.
  - injection Hbuild as <-.
    apply for_each_Raise_inv in Hgroup as (p & m & _ & Hm).
    unfold group_parameter in Hm.
    apply bind_Raise in Hm as [Hm|(? & _ & [=])]. by eapply argument_record_Raise.
Qed.

(** X12.  [build_payload] returns a map exactly when every blob column of
    every tool row and parameter row, owned or not, is encodable; when it
    raises, it raises [TypeError]. *)
Theorem build_payload_raises
    tools tool_localizations parameter_localizations parameters :
  ((∃ compiled,
      build_payload tools tool_localizations parameter_localizations parameters
        = Ok compiled)
   ↔ Forall tool_encodable tools ∧ Forall parameter_encodable parameters)
  ∧ ∀ e,
      build_payload tools tool_localizations parameter_localizations parameters
        = Raise e → e = TypeError.
Proof.
  split; [split|].
  - intros [compiled Hbuild]. unfold build_payload in Hbuild.
    apply bind_Ok in Hbuild as (pbt & Hgroup & Hcompile).
    apply for_each_Ok_inv in Hgroup, Hcompile. split.
    + eapply Forall_impl; [exact Hcompile|]. intros t (c1 & c2 & Hc).
      apply (compile_tool_Ok_iff tool_localizations pbt c1). eauto.
    + eapply Forall_impl; [exact Hgroup|]. intros p (m1 & m2 & Hm).
      apply (group_parameter_Ok_iff parameter_localizations m1). eauto.
  - intros [Htools Hparams]. unfold build_payload.
    destruct (for_each_total (group_parameter parameter_localizations) parameters ∅)
      as [pbt Hgroup].
    { intros m p Hp. apply group_parameter_Ok_iff.
      by apply (proj1 (Forall_forall _ _) Hparams). }
    rewrite Hgroup. cbn.
    apply for_each_total. intros c t Ht. apply compile_tool_Ok_iff.
    by apply (proj1 (Forall_forall _ _) Htools).
  - intros e. apply build_payload_Raise.
Qed.

Section Output.
Variable tool_localizations : gmap sqlval ToolLocalization.row.
Variable parameter_localizations : gmap (sqlval * sqlval) ParameterLocalization.row.

(** The record stored under a public identifier is built from the last
    tool that carries it. *)
Lemma build_payload_last tools parameters compiled id :
  build_payload tools tool_localizations parameter_localizations parameters
    = Ok compiled →
  match last (filter (λ t, Tool.id t = id) tools) with
  | Some tool =>
      ∃ record params_by_tool,
        compiled !! id = Some record
        ∧ tool_record tool_localizations params_by_tool tool = Ok record
        ∧ Forall2 (λ p a, argument_record parameter_localizations p = Ok a)
                  (rows_of_tool (Tool.rowId tool) parameters)
                  (Action.arguments record)
  | None => compiled !! id = None
  end.
Proof.
  intros Hbuild. unfold build_payload in Hbuild.
  apply bind_Ok in Hbuild as (pbt & Hgroup & Hcompile).
  pose proof (compile_tool_lookup _ _ _ _ _ id Hcompile) as Hlast.
  destruct (last _) as [tool|]; [|by rewrite Hlast, lookup_empty].
  destruct Hlast as (record & Hrecord & Hid).
  exists record, pbt. split; [done|]. split; [done|].
  destruct (group_parameter_lookup _ _ _ _ (Tool.rowId tool) Hgroup)
    as (records & Hrecords & Hm).
  rewrite lookup_empty in Hm. cbn in Hm.
  pose proof (tool_record_fields _ _ _ _ Hrecord) as (_ & _ & _ & Hargs).
  by rewrite Hargs, Hm.
Qed.

Lemma tool_record_columns params_by_tool tool record :
  tool_record tool_localizations params_by_tool tool = Ok record →
  Action.toolType record = Tool.toolType tool
  ∧ Action.sourceActionProvider record = Tool.sourceActionProvider tool
  ∧ Action.sourceContainerId record = Tool.sourceContainerId tool
  ∧ Action.attributionContainerId record = Tool.attributionContainerId tool
  ∧ Action.flags record = Tool.flags tool
  ∧ Action.visibilityFlags record = Tool.visibilityFlags tool
  ∧ Action.authenticationPolicy record = Tool.authenticationPolicy tool
  ∧ Action.deprecationReplacementId record = Tool.deprecationReplacementId tool
  ∧ encode_blob (Val (Tool.requirements tool)) = Ok (Action.requirements record)
  ∧ encode_blob (Val (Tool.outputTypeInstance tool))
      = Ok (Action.outputTypeInstance record)
  ∧ encode_blob (Val (Tool.customIcon tool)) = Ok (Action.customIcon record).
Proof.
  intros Hr. unfold tool_record in Hr.
  apply bind_Ok in Hr as (t1 & H1 & Hr).
  apply bind_Ok in Hr as (t2 & H2 & Hr).
  apply bind_Ok in Hr as (t3 & H3 & Hr).
  injection Hr as <-. by repeat split.
Qed.
End Output.

(** X13.  Under a public identifier the compiled map holds the record of the
    last tool that carries it, with that tool's parameters; an identifier
    of no tool is absent. *)
Theorem last_tool_wins
    tools tool_localizations parameter_localizations parameters compiled id :
  build_payload tools tool_localizations parameter_localizations parameters
    = Ok compiled →
  match last (filter (λ t, Tool.id t = id) tools) with
  | Some tool =>
      ∃ record,
        compiled !! id = Some record
        ∧ Action.rowId record = Tool.rowId tool
        ∧ Forall2 (λ p a, argument_record parameter_localizations p = Ok a)
                  (rows_of_tool (Tool.rowId tool) parameters)
                  (Action.arguments record)
  | None => compiled !! id = None
  end.
Proof.
  intros Hbuild.
  pose proof (build_payload_last _ _ _ _ _ id Hbuild) as Hlast.
  destruct (last _) as [tool|]; [|done].
  destruct Hlast as (record & pbt & Hid & Hrecord & Hargs).
  exists record. split; [done|]. split; [|done].
  by apply tool_record_fields in Hrecord as (? & _).
Qed.

Lemma compile_tool_size tool_localizations params_by_tool tools c0 c :
  for_each (compile_tool tool_localizations params_by_tool) tools c0 = Ok c →
  (size c ≤ size c0 + length tools)%nat.
Proof.
  revert c0. induction tools as [|t ts IH]; intros c0 Hrun.
  - injection Hrun as <-. apply Nat.le_add_r.
  - apply for_each_cons in Hrun as (c1 & Hstep & Hrun).
    apply bind_Ok in Hstep as (record & _ & [= <-]).
    apply IH in Hrun. cbn [length].
    pose proof (map_size_insert (Tool.id t) record c0) as Hsize.
    revert Hrun Hsize.
    generalize (size (<[Tool.id t:=record]> c0)), (size c0), (size c), (length ts).
    intros n1 n2 n3 n4. destruct (c0 !! Tool.id t); unfold id; lia.
Qed.

Lemma build_payload_dom
    tools tool_localizations parameter_localizations parameters compiled :
  build_payload tools tool_localizations parameter_localizations parameters
    = Ok compiled →
  dom compiled = list_to_set (Tool.id <$> tools).
Proof.
  intros Hbuild. apply set_eq. intros id.
  rewrite elem_of_dom, elem_of_list_to_set, list_elem_of_fmap. split.
  - intros [record Hid].
    destruct (build_payload_provenance _ _ _ _ _ _ _ Hbuild Hid)
      as (t & _ & Hin & Hkey & _). by exists t.
  - intros (t & -> & Hin). by eapply build_payload_has_entry.
Qed.

(** X14.  The keys of the compiled map are the public identifiers of the
    tools; the map has at most as many entries as there are tools, and as
    many when the identifiers are distinct. *)
Theorem compiled_domain
    tools tool_localizations parameter_localizations parameters compiled :
  build_payload tools tool_localizations parameter_localizations parameters
    = Ok compiled →
  dom compiled = list_to_set (Tool.id <$> tools)
  ∧ (size compiled ≤ length tools)%nat
  ∧ (NoDup (Tool.id <$> tools) → size compiled = length tools).
Proof.
  intros Hbuild. pose proof (build_payload_dom _ _ _ _ _ Hbuild) as Hdom.
  split; [done|]. split.
  - unfold build_payload in Hbuild.
    apply bind_Ok in Hbuild as (pbt & _ & Hcompile).
    apply compile_tool_size in Hcompile. by rewrite map_size_empty in Hcompile.
  - intros Hnd. rewrite <- size_dom, Hdom, size_list_to_set by done.
    by rewrite length_fmap.
Qed.

(** X15.  Every blob of the output decodes to the bytes of the input column:
    the three blob fields of a tool record and the four of each argument. *)
Theorem blobs_survive
    tools tool_localizations parameter_localizations parameters compiled id record :
  build_payload tools tool_localizations parameter_localizations parameters
    = Ok compiled →
  compiled !! id = Some record →
  ∃ tool, tool ∈ tools ∧ Tool.id tool = id
    ∧ blob_image (Tool.requirements tool) (Action.requirements record)
    ∧ blob_image (Tool.outputTypeInstance tool) (Action.outputTypeInstance record)
    ∧ blob_image (Tool.customIcon tool) (Action.customIcon record)
    ∧ Forall2
        (λ p a,
           blob_image (Param.relationships p) (Argument.relationships a)
           ∧ blob_image (Param.typeInstance p) (Argument.typeInstance a)
           ∧ blob_image (Param.typeRuntimeRequirements p)
               (TypeRecord.runtimeRequirements (Argument.type a))
           ∧ blob_image (Param.typeIdentifier p)
               (TypeRecord.encodedId (Argument.type a)))
        (rows_of_tool (Tool.rowId tool) parameters)
        (Action.arguments record).
Proof.
  intros Hbuild Hid.
  destruct (build_payload_provenance _ _ _ _ _ _ _ Hbuild Hid)
    as (tool & pbt & Hin & Hkey & Hrecord & Hargs).
  apply tool_record_columns in Hrecord
    as (_ & _ & _ & _ & _ & _ & _ & _ & H1 & H2 & H3).
  exists tool. split; [done|]. split; [done|].
  split; [by apply encode_blob_image|]. split; [by apply encode_blob_image|].
  split; [by apply encode_blob_image|].
  eapply Forall2_impl; [exact Hargs|]. intros p a Ha.
  apply argument_record_fields in Ha
    as (_ & _ & _ & _ & _ & B1 & B2 & _ & _ & _ & B3 & B4).
  repeat split; by apply encode_blob_image.
Qed.

(** X16.  The pass-through columns of a tool and of its parameters reach the
    output unchanged, and a description is the localized one or null, never
    substituted. *)
Theorem columns_pass_through
    tools tool_localizations parameter_localizations parameters compiled id record :
  build_payload tools tool_localizations parameter_localizations parameters
    = Ok compiled →
  compiled !! id = Some record →
  ∃ tool, tool ∈ tools ∧ Tool.id tool = id
    ∧ Action.rowId record = Tool.rowId tool
    ∧ Action.toolType record = Tool.toolType tool
    ∧ Action.sourceActionProvider record = Tool.sourceActionProvider tool
    ∧ Action.sourceContainerId record = Tool.sourceContainerId tool
    ∧ Action.attributionContainerId record = Tool.attributionContainerId tool
    ∧ Action.flags record = Tool.flags tool
    ∧ Action.visibilityFlags record = Tool.visibilityFlags tool
    ∧ Action.authenticationPolicy record = Tool.authenticationPolicy tool
    ∧ Action.deprecationReplacementId record = Tool.deprecationReplacementId tool
    ∧ Action.description record =
        match tool_localizations !! Tool.rowId tool with
        | Some l => ToolLocalization.descriptionSummary l
        | None => SNull
        end
    ∧ Forall2
        (λ p a,
           Argument.key a = Param.key p
           ∧ Argument.sortOrder a = Param.sortOrder p
           ∧ Argument.flags a = Param.flags p
           ∧ TypeRecord.rowId (Argument.type a) = Param.typeId p
           ∧ TypeRecord.kind (Argument.type a) = Param.typeKind p
           ∧ TypeRecord.runtimeFlags (Argument.type a) = Param.typeRuntimeFlags p
           ∧ Argument.description a =
               match parameter_localizations !! (Param.toolId p, Param.key p) with
               | Some l => ParameterLocalization.description l
               | None => SNull
               end)
        (rows_of_tool (Tool.rowId tool) parameters)
        (Action.arguments record).
Proof.
  intros Hbuild Hid.
  destruct (build_payload_provenance _ _ _ _ _ _ _ Hbuild Hid)
    as (tool & pbt & Hin & Hkey & Hrecord & Hargs).
  pose proof (tool_record_fields _ _ _ _ Hrecord) as (HrowId & _ & Hdesc & _).
  apply tool_record_columns in Hrecord
    as (C1 & C2 & C3 & C4 & C5 & C6 & C7 & C8 & _).
  exists tool. do 11 (split; [done|]). split; [exact Hdesc|].
  eapply Forall2_impl; [exact Hargs|]. intros p a Ha.
  apply argument_record_fields in Ha
    as (A1 & _ & A3 & A4 & A5 & _ & _ & A8 & A9 & A10 & _).
  by repeat split.
Qed.



Section MainFacts.
Variable path_str : string → string.
Variable path_parent : string → string.
Variable json_dumps : Payload → result string.

(** The five ways a run of [main] can go. *)
Lemma main_cases (w : World) (args : Args) :
  run (main path_str path_parent json_dumps w args) =
  if negb (path_exists w (db args)) then
    ([], Raise (SystemExit ("Database not found: " ++ path_str (db args))))
  else
    match store w (db args) with
    | None => ([Connect (db args); Close], Raise DatabaseError)
    | Some conn =>
        match fetch_tool_rows conn with
        | [] =>
            ([Connect (db args); Close],
             Raise (SystemExit "No action tools found in the database."))
        | _ =>
            match compile_store conn args with
            | Raise e => ([Connect (db args); Close], Raise e)
            | Ok compiled =>
                match json_dumps (document path_str w args compiled) with
                | Raise e =>
                    ([Connect (db args); Close; Mkdir (path_parent (output args))],
                     Raise e)
                | Ok text =>
                    ([Connect (db args); Close; Mkdir (path_parent (output args));
                      WriteText (output args) text], Ok tt)
                end
            end
        end
    end.
Proof.
  unfold run, main, compile_store, document.
  destruct (path_exists w (db args)); [|reflexivity]. cbn [negb].
  unfold mbind, io_bind, perform, try_finally, lift, fetch_all.
  destruct (store w (db args)) as [conn|]; [|reflexivity].
  destruct (fetch_tool_rows conn) as [|t ts]; [reflexivity|].
  cbn [app].
  destruct (build_payload _ _ _ _) as [compiled|e]; [|reflexivity].
  destruct (json_dumps _) as [text|e]; reflexivity.
Qed.
End MainFacts.



(** X20.  When [main] succeeds, the store was readable and had action tools,
    the text written is the serialization of the document built from it,
    the header counts the distinct public identifiers, and every action
    in the document is an action tool. *)
Theorem main_writes_compiled_store
    (path_str path_parent : string → string)
    (json_dumps : Payload → result string) (w : World) (args : Args)
    (trace : list event) :
  run (main path_str path_parent json_dumps w args) = (trace, Ok tt) →
  ∃ conn compiled text,
    path_exists w (db args) = true
    ∧ store w (db args) = Some conn
    ∧ fetch_tool_rows conn ≠ []
    ∧ compile_store conn args = Ok compiled
    ∧ json_dumps (document path_str w args compiled) = Ok text
    ∧ trace = [Connect (db args); Close; Mkdir (path_parent (output args));
               WriteText (output args) text]
    ∧ actionCount (metadata (document path_str w args compiled))
      = size (list_to_set (Tool.id <$> fetch_tool_rows conn) : gset sqlval)
    ∧ ∀ id record, compiled !! id = Some record →
        Action.toolType record = SText "action".
Proof.
  rewrite main_cases.
  destruct (path_exists w (db args)); cbn [negb]; [|discriminate].
  destruct (store w (db args)) as [conn|]; [|discriminate].
  destruct (fetch_tool_rows conn) as [|t ts] eqn:Htools; [discriminate|].
  destruct (compile_store conn args) as [compiled|e] eqn:Hcompile; [|discriminate].
  destruct (json_dumps _) as [text|e] eqn:Hjson; [|discriminate].
  intros [= <-]. exists conn, compiled, text.
  do 2 (split; [done|]). split; [by rewrite Htools|]. do 3 (split; [done|]).
  unfold compile_store in Hcompile.
  split.
  { cbn [document metadata actionCount].
    by rewrite <- (build_payload_dom _ _ _ _ _ Hcompile), size_dom. }
  intros id record Hid.
  destruct (build_payload_provenance _ _ _ _ _ _ _ Hcompile Hid)
    as (tool & pbt & Hin & Hkey & Hrecord & _).
  apply tool_record_columns in Hrecord as (-> & _).
  by apply elem_of_fetch_tool_rows in Hin as [_ ?].
Qed.


Lemma result_ok {A} (r : result A) :
  match r with Ok _ => true | Raise _ => false end = true → ∃ a, r = Ok a.
Proof. destruct r as [a|e]; [by exists a | discriminate]. Qed.

Lemma result_ok_entry {A} (r : result (gmap sqlval A)) (id : sqlval) :
  match r with
  | Ok c => match c !! id with Some _ => true | None => false end
  | Raise _ => false
  end = true →
  ∃ c x, r = Ok c ∧ c !! id = Some x.
Proof.
  destruct r as [c|e]; [|discriminate].
  destruct (c !! id) as [x|] eqn:Hid; [|discriminate]. by exists c, x.
Qed.

Lemma shuffled_one :
  ∃ compiled record,
    compile_store Sample.shuffled Sample.args = Ok compiled
    ∧ compiled !! SText "com.example.one" = Some record.
Proof. apply result_ok_entry. vm_compute. reflexivity. Qed.


Lemma bilingual_fr_lacks_two :
  ¬ has_row ToolLocalization.toolId
      (query_tool_localizations Sample.bilingual "fr") (SInt 2).
Proof.
  intros (r & Hin & Hk). vm_compute in Hin.
  apply list_elem_of_singleton in Hin. by subst r.
Qed.

Lemma bilingual_fr_lacks_two_value :
  ¬ has_row parameter_localization_key
      (query_parameter_localizations Sample.bilingual "fr")
      (SInt 2, SText "value").
Proof.
  intros (r & Hin & Hk). vm_compute in Hin.
  apply list_elem_of_singleton in Hin. by subst r.
Qed.

Lemma encode_blob_injective_witness :
  SBlob ["a"%byte; "b"%byte] = SBlob ["a"%byte; "b"%byte].
Proof. apply encode_blob_injective; reflexivity. Defined.


Lemma unique_rows_resolve_witness :
  fetch_tool_localizations Sample.bilingual "fr" (Some "en"%string) !! SInt 1
    = Some (Sample.tool_name 1 "fr" "Un")
  ∧ fetch_parameter_localizations Sample.bilingual "fr" (Some "en"%string)
      !! (SInt 1, SText "value")
    = Some (Sample.parameter_name 1 "value" "fr" "Valeur")
  ∧ fetch_tool_localizations Sample.bilingual "fr" (Some "en"%string) !! SInt 2
    = Some (Sample.tool_name 2 "en" "Two")
  ∧ fetch_parameter_localizations Sample.bilingual "fr" (Some "en"%string)
      !! (SInt 2, SText "value")
    = Some (Sample.parameter_name 2 "value" "en" "Value").
Proof.
  destruct (unique_rows_resolve Sample.bilingual "fr" (Some "en"%string))
    as (H1 & H2 & H3 & H4).
  refine (conj _ (conj _ (conj _ _))).
  - apply (H1 (Sample.tool_name 1 "fr" "Un")).
    + apply (bool_decide_unpack _). vm_compute. exact I.
    + vm_compute. left.
  - apply (H2 (Sample.parameter_name 1 "value" "fr" "Valeur")).
    + apply (bool_decide_unpack _). vm_compute. exact I.
    + vm_compute. left.
  - apply (H3 "en"%string (Sample.tool_name 2 "en" "Two"));
      [reflexivity | discriminate | discriminate | | | ].
    + apply (bool_decide_unpack _). vm_compute. exact I.
    + vm_compute. right. left.
    + exact bilingual_fr_lacks_two.
  - apply (H4 "en"%string (Sample.parameter_name 2 "value" "en" "Value"));
      [reflexivity | discriminate | discriminate | | | ].
    + apply (bool_decide_unpack _). vm_compute. exact I.
    + vm_compute. right. left.
    + exact bilingual_fr_lacks_two_value.
Defined.



Lemma fetch_parameters_complete_witness :
  ∃ p, p ∈ fetch_parameters Sample.shuffled
       ∧ same_parameter p (Sample.stored_parameter 1 "c" 1 SNull).
Proof.
  apply (fetch_parameters_complete Sample.shuffled
           (Sample.stored_parameter 1 "c" 1 SNull)
           (Sample.tool 1 "com.example.one" "action")).
  - do 4 right. left.
  - do 2 right. left.
  - reflexivity.
  - reflexivity.
  - discriminate.
Defined.

Lemma build_payload_raises_witness :
  (¬ ∃ compiled,
       build_payload Catalog.tools Catalog.tool_localizations
         Catalog.parameter_localizations (Odd.faulty :: Catalog.parameters)
         = Ok compiled)
  ∧ build_payload Catalog.tools Catalog.tool_localizations
      Catalog.parameter_localizations (Odd.faulty :: Catalog.parameters)
    = Raise TypeError.
Proof.
  destruct (build_payload_raises Catalog.tools Catalog.tool_localizations
              Catalog.parameter_localizations (Odd.faulty :: Catalog.parameters))
    as [Hiff Hraise].
  assert (¬ ∃ compiled,
            build_payload Catalog.tools Catalog.tool_localizations
              Catalog.parameter_localizations (Odd.faulty :: Catalog.parameters)
              = Ok compiled) as Hno.
  { intros Hok. apply Hiff in Hok as [_ Hparams].
    apply Forall_cons in Hparams as [Hfaulty _]. discriminate Hfaulty. }
  split; [done|].
  destruct (build_payload _ _ _ _) as [compiled|e] eqn:Hbuild.
  - exfalso. apply Hno. by exists compiled.
  - by rewrite (Hraise e).
Defined.

Lemma twins_compiled :
  ∃ compiled, build_payload Odd.twins ∅ ∅ [] = Ok compiled.
Proof. apply result_ok. vm_compute. reflexivity. Qed.

Lemma twins_last :
  last (filter (λ t, Tool.id t = SText "com.example.twin") Odd.twins)
  = Some (Sample.tool 2 "com.example.twin" "action").
Proof. vm_compute. reflexivity. Qed.

Lemma last_tool_wins_witness :
  ∃ compiled record,
    build_payload Odd.twins ∅ ∅ [] = Ok compiled
    ∧ compiled !! SText "com.example.twin" = Some record
    ∧ Action.rowId record = SInt 2.
Proof.
  destruct twins_compiled as [compiled Hb].
  pose proof (last_tool_wins _ _ _ _ _ (SText "com.example.twin") Hb) as Hlast.
  rewrite twins_last in Hlast. destruct Hlast as (record & Hid & HrowId & _).
  by exists compiled, record.
Defined.

Lemma compiled_domain_witness :
  ∃ compiled,
    Catalog.compiled = Ok compiled
    ∧ dom compiled = list_to_set (Tool.id <$> Catalog.tools)
    ∧ size compiled = 2%nat.
Proof.
  destruct catalog_compiled_ok as [compiled Hb].
  destruct (compiled_domain _ _ _ _ _ Hb) as (Hdom & _ & Hsize).
  exists compiled. split; [done|]. split; [done|].
  by apply Hsize, catalog_ids_distinct.
Defined.

Lemma blobs_survive_witness :
  ∃ compiled record,
    compile_store Sample.shuffled Sample.args = Ok compiled
    ∧ compiled !! SText "com.example.one" = Some record
    ∧ ∃ a b c,
        Action.arguments record = [a; b; c]
        ∧ ∃ s, Argument.relationships a = Some s
               ∧ Base64.b64decode s = Ok ["001"%byte].
Proof.
  destruct shuffled_one as (compiled & record & Hb & Hk).
  destruct (blobs_survive _ _ _ _ _ _ _ Hb Hk)
    as (tool & Hin & Hid & _ & _ & _ & Hargs).
  assert (rows_of_tool (Tool.rowId tool) (fetch_parameters Sample.shuffled)
          = rows_of_tool (SInt 1) (fetch_parameters Sample.shuffled)) as Hrows.
  { apply elem_of_fetch_tool_rows in Hin as [Hin _].
    unfold Sample.shuffled, Tools in Hin. rewrite !elem_of_cons in Hin.
    destruct Hin as [->|[->|[->|Hin]]]; [discriminate.. | done |].
    by apply elem_of_nil in Hin. }
  rewrite Hrows in Hargs.
  assert (∃ q r, rows_of_tool (SInt 1) (fetch_parameters Sample.shuffled)
                 = [Odd.fetched_c; q; r]) as (q & r & Hthree)
    by (eexists _, _; vm_compute; reflexivity).
  rewrite Hthree in Hargs.
  apply Forall2_three in Hargs as (a & b & c & Heq & (Ha & _) & _ & _).
  exists compiled, record. split; [done|]. split; [done|].
  exists a, b, c. split; [done|]. exact Ha.
Defined.

Lemma columns_pass_through_witness :
  ∃ compiled record,
    Catalog.compiled = Ok compiled
    ∧ compiled !! SText "com.example.two" = Some record
    ∧ Action.rowId record = SInt 2
    ∧ Action.toolType record = SText "action"
    ∧ Action.description record = SNull.
Proof.
  destruct catalog_two as (compiled & record & Hb & Hk).
  destruct (columns_pass_through _ _ _ _ _ _ _ Hb Hk)
    as (tool & Hin & Hid & HrowId & Htype & _ & _ & _ & _ & _ & _ & _ & Hdesc & _).
  apply catalog_tool_two in Hin as ->; [|done].
  by exists compiled, record.
Defined.




Lemma main_writes_compiled_store_witness :
  ∃ conn compiled text,
    path_exists Sample.world (db Sample.args) = true
    ∧ store Sample.world (db Sample.args) = Some conn
    ∧ fetch_tool_rows conn ≠ []
    ∧ compile_store conn Sample.args = Ok compiled
    ∧ (λ _, Ok "{}"%string) (document id Sample.world Sample.args compiled)
      = Ok text
    ∧ [Connect "raw.sqlite"; Close; Mkdir "out"; WriteText "out/compiled.json" "{}"]
      = [Connect (db Sample.args); Close; Mkdir "out";
         WriteText (output Sample.args) text]
    ∧ actionCount (metadata (document id Sample.world Sample.args compiled))
      = size (list_to_set (Tool.id <$> fetch_tool_rows conn) : gset sqlval)
    ∧ ∀ id record, compiled !! id = Some record →
        Action.toolType record = SText "action".
Proof.
  apply (main_writes_compiled_store id (λ _, "out"%string) (λ _, Ok "{}"%string)
           Sample.world Sample.args).
  exact main_writes_output.
Defined.

